(** * redux-first-router: URL-to-action translation and browser history
      synchronisation

    A shallow embedding of [src/utils/urlToAction.js], of the
    [BrowserHistory] class (pop handling, jump, set-state, the rapid-change
    workaround) and of the callback middleware, with the properties the
    specification states about them and further properties of the code. *)

From stdpp Require Import gmap strings list.
From Stdlib Require Import ZArith Ascii Lia Sorted.

#[local] Set Warnings "-register-all".

(* ================================================================== *)
(** * BrowserHistory: pop handling and jumps *)
(* ================================================================== *)

Module BrowserHistory.

#[local] Open Scope Z_scope.

(** ['back'] / ['next'], the [kind] argument of [jump]. *)
Inductive Kind := back | next.

(** What leaves the class: calls on [window.history] and the call of the
    base class's [jump] (the gate), in the order they are issued.  The
    [revertPop] argument of [jump] is the index of the closure it hands
    over. *)
Inductive Call :=
  | history_go (n : Z)
  | history_pushState (id key state url : string)
  | history_replaceState (id key state url : string)
  | jump (n : Z) (kind : Kind) (revertPop : nat).

(** The [revertPop] closure of one [handlePop] activation: the [n] it
    captured and its local variable [reverted]. *)
Record Closure := { captured_n : Z; reverted : bool }.

(** The fields of [this] that the modelled methods read or write.
    [pendingPop] is [None] while the field is undefined or null; [entries]
    holds the url of each entry. *)
Record t := {
  _popForced : bool;
  pendingPop : option Z;
  url : string;
  prevUrl : string;
  entries : list string;
  index : nat;
  _id : string;
  currentPop : option nat;
  closures : list Closure
}.

(** An action as the modelled methods use it:
    [{ state, location: { key, url } }]. *)
Record Action := {
  state : string;
  location_key : string;
  location_url : string
}.

Definition set_popForced (b : bool) (s : t) : t :=
  {| _popForced := b; pendingPop := pendingPop s; url := url s;
     prevUrl := prevUrl s; entries := entries s; index := index s;
     _id := _id s; currentPop := currentPop s; closures := closures s |}.

Definition set_pendingPop (p : option Z) (s : t) : t :=
  {| _popForced := _popForced s; pendingPop := p; url := url s;
     prevUrl := prevUrl s; entries := entries s; index := index s;
     _id := _id s; currentPop := currentPop s; closures := closures s |}.

Definition set_currentPop (c : option nat) (s : t) : t :=
  {| _popForced := _popForced s; pendingPop := pendingPop s; url := url s;
     prevUrl := prevUrl s; entries := entries s; index := index s;
     _id := _id s; currentPop := c; closures := closures s |}.

Definition set_closures (cs : list Closure) (s : t) : t :=
  {| _popForced := _popForced s; pendingPop := pendingPop s; url := url s;
     prevUrl := prevUrl s; entries := entries s; index := index s;
     _id := _id s; currentPop := currentPop s; closures := cs |}.

(** JavaScript truthiness of [this.pendingPop]: undefined and [0] are
    falsy. *)
Definition truthy_pendingPop (p : option Z) : bool :=
  match p with
  | None => false
  | Some n => negb (n =? 0)
  end.

(** Modelled from the spec: [_isNext] of the base class [History], which
    is not among the sources: the reported location "matches the next
    candidate", the entry after the current index. *)
Definition _isNext (s : t) (loc : Action) : bool :=
  match entries s !! S (index s) with
  | Some u => String.eqb u (location_url loc)
  | None => false
  end.

(** [_forceGo(n) { this._popForced = true; window.history.go(n) }] *)
Definition _forceGo (n : Z) (s : t) : t * list Call :=
  (set_popForced true s, [history_go n]).

(** [handlePop], the listener set up by [_setupPopHandling]. *)
Definition handlePop (loc : Action) (s : t) : t * list Call :=
  if _popForced s then (set_popForced false s, [])
  else if negb (truthy_pendingPop (pendingPop s)) then
    let n := if _isNext s loc then 1 else -1 in
    let s := set_pendingPop (Some n) s in
    let kind := if n =? -1 then back else next in
    let revertPop := length (closures s) in
    let s := set_closures (closures s ++ [{| captured_n := n; reverted := false |}]) s in
    (set_currentPop (Some revertPop) s, [jump n kind revertPop])
  else
    let p := default 0 (pendingPop s) in
    if String.eqb (location_url loc) (url s) then
      let n := p * -1 in      (* switch directions *)
      _forceGo (n * -1) s
    else
      let n := p in
      _forceGo (n * -1) s.

(** The closure [revertPop], called by whoever received it from [jump]:
    [if (!reverted) this._forceGo(n * -1); reverted = true].  A closure
    index that was never handed out does nothing. *)
Definition revertPop (c : nat) (s : t) : t * list Call :=
  match closures s !! c with
  | None => (s, [])
  | Some cl =>
      let '(s1, calls) :=
        if negb (reverted cl) then _forceGo (captured_n cl * -1) s else (s, []) in
      (set_closures (<[c := {| captured_n := captured_n cl; reverted := true |}]> (closures s1)) s1,
       calls)
  end.

(** Several pop events in a row, nothing else happening in between. *)
Fixpoint handlePops (locs : list Action) (s : t) : t * list Call :=
  match locs with
  | [] => (s, [])
  | loc :: rest =>
      let '(s1, c1) := handlePop loc s in
      let '(s2, c2) := handlePops rest s1 in
      (s2, c1 ++ c2)
  end.

(** [k] calls of the same [revertPop] closure. *)
Fixpoint revertPops (k : nat) (c : nat) (s : t) : t * list Call :=
  match k with
  | O => (s, [])
  | S k' =>
      let '(s1, c1) := revertPop c s in
      let '(s2, c2) := revertPops k' c s1 in
      (s2, c1 ++ c2)
  end.

(** What can reach the object from outside, in any order: a pop event,
    a call of a [revertPop] closure, a forced navigation. *)
Inductive Input :=
  | pop_event (loc : Action)
  | revertPop_called (c : nat)
  | forceGo_called (n : Z).

Definition feed1 (i : Input) (s : t) : t * list Call :=
  match i with
  | pop_event loc => handlePop loc s
  | revertPop_called c => revertPop c s
  | forceGo_called n => _forceGo n s
  end.

Fixpoint feed (inputs : list Input) (s : t) : t * list Call :=
  match inputs with
  | [] => (s, [])
  | i :: rest =>
      let '(s1, c1) := feed1 i s in
      let '(s2, c2) := feed rest s1 in
      (s2, c1 ++ c2)
  end.

Definition is_jump (c : Call) : bool :=
  match c with jump _ _ _ => true | _ => false end.

(** ** Promise chains

    A method that returns a chain of promises is modelled by the steps of
    the chain in the order [.then] sequences them. *)
Inductive Op :=
  | awaitLocation (url : string) (name : string)
  | forceGo (n : Z)
  | pushState (id key state url : string)
  | replaceState (id key state url : string).

(** The [awaitLoc] / [actOrUrl] arguments: an action or a url string. *)
Inductive ActOrUrl :=
  | an_action (a : Action)
  | a_url (u : string).

(** [typeof actOrUrl === 'string' ? actOrUrl : actOrUrl.location.url] *)
Definition url_of (x : ActOrUrl) : string :=
  match x with
  | an_action a => location_url a
  | a_url u => u
  end.

(** [awaitLoc || this.prevUrl]: a missing argument and the empty string
    are falsy. *)
Definition or_prevUrl (awaitLoc : option ActOrUrl) (s : t) : ActOrUrl :=
  match awaitLoc with
  | Some (an_action a) => an_action a
  | Some (a_url u) => if String.eqb u "" then a_url (prevUrl s) else a_url u
  | None => a_url (prevUrl s)
  end.

Definition _awaitLocation (actOrUrl : ActOrUrl) (name : string) : list Op :=
  [awaitLocation (url_of actOrUrl) name].

Definition _push (s : t) (action : Action) (awaitLoc : option ActOrUrl) : list Op :=
  _awaitLocation (or_prevUrl awaitLoc s) "_push"
    ++ [pushState (_id s) (location_key action) (state action) (location_url action)].

(** [_replace(action, awaitLoc, n)]; [n] is [0] when the argument is
    omitted (both are falsy). *)
Definition _replace (s : t) (action : Action) (awaitLoc : option ActOrUrl) (n : Z) : list Op :=
  if negb (n =? 0) then
    [forceGo n]
      ++ _awaitLocation (or_prevUrl awaitLoc s) "_replaceBackNext"
      ++ [replaceState (_id s) (location_key action) (state action) (location_url action)]
  else
    _awaitLocation (or_prevUrl awaitLoc s) "_replace"
      ++ [replaceState (_id s) (location_key action) (state action) (location_url action)].

(** [_jump(action, n, isPop)] *)
Definition _jump (s : t) (action : Action) (n : Z) (isPop : bool) : list Op :=
  if n =? 0 then _replace s action None 0
  else if isPop then []
  else
    _awaitLocation (a_url (prevUrl s)) "jump prev"
      ++ [forceGo n]
      ++ _awaitLocation (an_action action) "jump loc"
      ++ _replace s action (Some (an_action action)) 0.

(** Running a chain once every awaited location has settled: the calls it
    makes on [window.history], and what it does to [this]. *)
Definition run_op (o : Op) (s : t) : t * list Call :=
  match o with
  | awaitLocation _ _ => (s, [])
  | forceGo n => _forceGo n s
  | pushState i k st u => (s, [history_pushState i k st u])
  | replaceState i k st u => (s, [history_replaceState i k st u])
  end.

Fixpoint run_ops (os : list Op) (s : t) : t * list Call :=
  match os with
  | [] => (s, [])
  | o :: rest =>
      let '(s1, c1) := run_op o s in
      let '(s2, c2) := run_ops rest s1 in
      (s2, c1 ++ c2)
  end.

End BrowserHistory.

(* ================================================================== *)
(** * The rapid-change workaround: [tryChange] and its queue *)
(* ================================================================== *)

Module RapidChange.

Definition maxTries : nat := 10.

(** One call [tryChange(ready, complete, name)] as [_awaitLocation] makes
    it: [ready] compares [target] with the url of [window.location],
    [complete] resolves the promise numbered [promise]. *)
Record Waiter := { target : string; promise : nat; name : string }.

(** The module-level variables [tries] and [queue], and the callbacks that
    [setTimeout] holds and has not run yet (all with the same delay, so
    they run in the order they were set). *)
Record t := { tries : nat; queue : list Waiter; timers : list Waiter }.

Definition initial : t := {| tries := 0; queue := []; timers := [] |}.

Inductive Effect :=
  | console_log (n : nat) (name : string)
  | setTimeout (w : Waiter) (ms : nat)
  | complete (w : Waiter).

(** State, effects in order, and whether the call ended by throwing
    [Error('BrowserHistory.rapidChangeWorkAround failed to be "ready"')]. *)
Record Outcome := { st : t; effects : list Effect; thrown : bool }.

(** [ready()]: [url === locationToUrl(window.location)]. *)
Definition ready (location : string) (w : Waiter) : bool :=
  String.eqb (target w) location.

(** [rapidChangeWorkaround(ready, complete, name)], with the variables it
    shares passed along; [test] is [process.env.NODE_ENV === 'test'].  The
    recursive call takes the head of the queue, so the queue decreases. *)
Fixpoint rapidChangeWorkaround_ (test : bool) (location : string) (w : Waiter)
    (tries0 : nat) (timers0 queue0 : list Waiter) {struct queue0} : Outcome :=
  let tries1 := S tries0 in
  if negb (ready location w) && (tries1 <? maxTries) then
    {| st := {| tries := tries1; queue := queue0; timers := timers0 ++ [w] |};
       effects := [console_log (tries1 + 1) (name w); setTimeout w 9];
       thrown := false |}
  else if test && negb (ready location w) then
    {| st := {| tries := tries1; queue := queue0; timers := timers0 |};
       effects := [];
       thrown := true |}
  else
    match queue0 with
    | [] =>
        {| st := {| tries := 0; queue := []; timers := timers0 |};
           effects := [complete w];
           thrown := false |}
    | again :: rest =>
        let o := rapidChangeWorkaround_ test location again 0 timers0 rest in
        {| st := st o; effects := complete w :: effects o; thrown := thrown o |}
    end.

Definition rapidChangeWorkaround (test : bool) (location : string) (w : Waiter) (s : t) : Outcome :=
  rapidChangeWorkaround_ test location w (tries s) (timers s) (queue s).

(** [tryChange(ready, complete, name)] *)
Definition tryChange (test : bool) (location : string) (w : Waiter) (s : t) : Outcome :=
  if tries s =? 0 then rapidChangeWorkaround test location w s
  else
    {| st := {| tries := tries s; queue := queue s ++ [w]; timers := timers s |};
       effects := [];
       thrown := false |}.

(** What can happen: a caller asks for a wait, or the oldest timer runs
    its callback. *)
Inductive Event :=
  | tryChange_called (w : Waiter)
  | timer_fired.

Definition step (test : bool) (location : string) (e : Event) (s : t) : Outcome :=
  match e with
  | tryChange_called w => tryChange test location w s
  | timer_fired =>
      match timers s with
      | [] => {| st := s; effects := []; thrown := false |}
      | w :: later =>
          rapidChangeWorkaround test location w
            {| tries := tries s; queue := queue s; timers := later |}
      end
  end.

(** A run: each event comes with the url [window.location] shows while
    it is handled.  An error thrown in one event does not stop the page;
    the run records that it happened. *)
Fixpoint run (test : bool) (evs : list (string * Event)) (s : t) : Outcome :=
  match evs with
  | [] => {| st := s; effects := []; thrown := false |}
  | (location, e) :: rest =>
      let o1 := step test location e s in
      let o2 := run test rest (st o1) in
      {| st := st o2; effects := effects o1 ++ effects o2;
         thrown := thrown o1 || thrown o2 |}
  end.

Definition arrivals (evs : list (string * Event)) : list Waiter :=
  omap (fun le => match snd le with tryChange_called w => Some w | timer_fired => None end) evs.

Definition completions (es : list Effect) : list Waiter :=
  omap (fun e => match e with complete w => Some w | _ => None end) es.

Definition backoffs (es : list Effect) : list nat :=
  omap (fun e => match e with setTimeout _ ms => Some ms | _ => None end) es.

(** The waits in the system, the polling one first. *)
Definition waiting (s : t) : list Waiter := timers s ++ queue s.

(** Nothing going on; one wait polling, with a timer set; or stopped by the
    error the test mode throws, the counter left at the bound. *)
Definition idle (s : t) : Prop :=
  tries s = 0 /\ timers s = [] /\ queue s = [].

Definition polling (s : t) : Prop :=
  exists w, timers s = [w] /\ 1 <= tries s < maxTries.

Definition stuck (s : t) : Prop :=
  tries s = maxTries /\ timers s = [].

(** How a call of [rapidChangeWorkaround] or an event leaves the waits
    [ws] that were in the system: the completed ones, then the ones still
    waiting; when it throws, the wait that failed is in neither. *)
Definition settled (test : bool) (ws : list Waiter) (o : Outcome) : Prop :=
  (thrown o = false
   /\ (idle (st o) \/ polling (st o))
   /\ completions (effects o) ++ waiting (st o) = ws)
  \/ (thrown o = true
      /\ test = true
      /\ stuck (st o)
      /\ exists w, completions (effects o) ++ w :: queue (st o) = ws).

Definition arrival (e : Event) : list Waiter :=
  match e with tryChange_called w => [w] | timer_fired => [] end.

(** A wait that never becomes ready: the call of [tryChange] while the
    browser shows [first], and a timer for each url of [later]. *)
Definition timers_fired (locations : list string) : list (string * Event) :=
  map (fun l => (l, timer_fired)) locations.

Definition never_ready_run (w : Waiter) (first : string) (later : list string)
    : list (string * Event) :=
  (first, tryChange_called w) :: timers_fired later.

(** The timer callbacks that can still be needed before every wait in the
    system has completed: the polls left to the polling wait, and nine for
    each queued one (its first poll is made when the wait before it
    completes). *)
Definition polls_left (s : t) : nat :=
  match timers s with
  | [] => 0
  | _ :: _ => (maxTries - tries s) + 9 * length (queue s)
  end.

End RapidChange.

(* ================================================================== *)
(** * JavaScript values and built-ins used by the translator *)
(* ================================================================== *)

Module JS.

(** Values that parameters, queries, hashes and states can hold.  A number
    is identified with the integer it denotes (exact below 2^53). *)
Inductive value : Type :=
  | VUndefined
  | VNull
  | VBool (b : bool)
  | VNum (z : Z)
  | VStr (s : string)
  | VObj (m : gmap string value).

Definition truthy (v : value) : bool :=
  match v with
  | VUndefined | VNull => false
  | VBool b => b
  | VNum z => negb (z =? 0)%Z
  | VStr s => negb (String.eqb s "")
  | VObj _ => true
  end.

Definition is_undefined (v : value) : bool :=
  match v with VUndefined => true | _ => false end.

(** An optional string as a value: a missing one is [undefined]. *)
Definition of_option (o : option string) : value :=
  match o with Some s => VStr s | None => VUndefined end.

(** The errors the translator's own code can raise. *)
Inductive error := TypeError | URIError.

Inductive result (A : Type) : Type :=
  | Ok (a : A)
  | Throw (e : error).
Arguments Ok {A} a.
Arguments Throw {A} e.

Definition bind {A B} (r : result A) (k : A -> result B) : result B :=
  match r with
  | Ok a => k a
  | Throw e => Throw e
  end.

(** The call returns, it does not throw. *)
Definition is_ok {A} (r : result A) : bool :=
  match r with Ok _ => true | Throw _ => false end.

(** [a || b] on optional things that are truthy whenever present. *)
Definition or_else {A} (a b : option A) : option A :=
  match a with Some x => Some x | None => b end.

(** ** Characters *)

Definition is_digit (c : ascii) : bool :=
  let n := N_of_ascii c in ((48 <=? n) && (n <=? 57))%N.

Definition is_lower (c : ascii) : bool :=
  let n := N_of_ascii c in ((97 <=? n) && (n <=? 122))%N.

Definition is_upper (c : ascii) : bool :=
  let n := N_of_ascii c in ((65 <=? n) && (n <=? 90))%N.

(** [\w]: [[A-Za-z0-9_]]. *)
Definition is_word (c : ascii) : bool :=
  is_digit c || is_lower c || is_upper c || Ascii.eqb c "_".

(** [toUpperCase] on one character of the ASCII range. *)
Definition toUpperCase (c : ascii) : ascii :=
  if is_lower c then ascii_of_N (N_of_ascii c - 32) else c.

Definition hex_value (c : ascii) : option N :=
  let n := N_of_ascii c in
  if is_digit c then Some (n - 48)%N
  else if ((65 <=? n) && (n <=? 70))%N then Some (n - 55)%N
  else if ((97 <=? n) && (n <=? 102))%N then Some (n - 87)%N
  else None.

(** ** Strings *)

Fixpoint all_digits (s : string) : bool :=
  match s with
  | EmptyString => true
  | String c rest => is_digit c && all_digits rest
  end.

(** [/^\d+$/.test(s)] on a string. *)
Definition test_digits (s : string) : bool :=
  negb (String.eqb s "") && all_digits s.

(** [parseFloat] on a string of digits: the number they denote.  This is
    what JavaScript returns as long as the number is at most [2^53]; a
    larger one is rounded to a double (and is [Infinity] from about 309
    digits on), which is not modelled. *)
Fixpoint parse_digits (acc : Z) (s : string) : Z :=
  match s with
  | EmptyString => acc
  | String c rest => parse_digits (10 * acc + Z.of_N (N_of_ascii c - 48))%Z rest
  end.

Definition parseFloat (s : string) : Z := parse_digits 0 s.

(** [s.replace(/-/g, ' ')] *)
Fixpoint replace_hyphens (s : string) : string :=
  match s with
  | EmptyString => EmptyString
  | String c rest => String (if Ascii.eqb c "-" then " "%char else c) (replace_hyphens rest)
  end.

(** [s.replace(/\b\w/g, l => l.toUpperCase())]: a word character after a
    non-word character, or at the start, is upper-cased.  [boundary] tells
    whether the character before is a non-word character. *)
Fixpoint upcase_words (boundary : bool) (s : string) : string :=
  match s with
  | EmptyString => EmptyString
  | String c rest =>
      String (if boundary && is_word c then toUpperCase c else c)
             (upcase_words (negb (is_word c)) rest)
  end.

Definition capitalize (s : string) : string :=
  upcase_words true (replace_hyphens s).

(** [if s starts with p then the rest]. *)
Fixpoint strip_prefix (p s : string) : option string :=
  match p, s with
  | EmptyString, _ => Some s
  | String a p', String b s' => if Ascii.eqb a b then strip_prefix p' s' else None
  | String _ _, EmptyString => None
  end.

(** [s.replace(p, '')] with a string pattern: the first occurrence of [p]
    in [s] is removed. *)
Fixpoint replace_first (p s : string) : string :=
  match strip_prefix p s with
  | Some rest => rest
  | None =>
      match s with
      | EmptyString => EmptyString
      | String c s' => String c (replace_first p s')
      end
  end.

(** ** [decodeURIComponent]

    Strings are taken as their UTF-8 bytes.  [%XX] is replaced by the byte
    it denotes; the bytes so written must form well-formed UTF-8, and a
    [%] that is not followed by two hexadecimal digits, or an ill-formed
    sequence, raises [URIError].  [pending] counts the continuation bytes
    still owed, [cp] is the code point read so far and [lo] the least code
    point a sequence of this length may encode. *)
Definition valid_code_point (cp lo : N) : bool :=
  ((lo <=? cp) && (cp <=? 1114111) && negb ((55296 <=? cp) && (cp <=? 57343)))%N.

Fixpoint decode (pending : nat) (cp lo : N) (s : string) : result string :=
  match s with
  | EmptyString =>
      match pending with O => Ok EmptyString | S _ => Throw URIError end
  | String c s1 =>
      if Ascii.eqb c "%" then
        match s1 with
        | String h1 (String h2 rest) =>
            match hex_value h1, hex_value h2 with
            | Some a, Some b =>
                let B := (16 * a + b)%N in
                let emit (r : result string) :=
                  bind r (fun out => Ok (String (ascii_of_N B) out)) in
                match pending with
                | O =>
                    if (B <? 128)%N then emit (decode 0 0 0 rest)
                    else if (N.land B 224 =? 192)%N then emit (decode 1 (N.land B 31) 128 rest)
                    else if (N.land B 240 =? 224)%N then emit (decode 2 (N.land B 15) 2048 rest)
                    else if (N.land B 248 =? 240)%N then emit (decode 3 (N.land B 7) 65536 rest)
                    else Throw URIError
                | S k =>
                    if (N.land B 192 =? 128)%N then
                      let cp' := (cp * 64 + N.land B 63)%N in
                      match k with
                      | O => if valid_code_point cp' lo then emit (decode 0 0 0 rest)
                             else Throw URIError
                      | S _ => emit (decode k cp' lo rest)
                      end
                    else Throw URIError
                end
            | _, _ => Throw URIError
            end
        | _ => Throw URIError
        end
      else
        match pending with
        | O => bind (decode 0 0 0 s1) (fun out => Ok (String c out))
        | S _ => Throw URIError
        end
  end.

Definition decodeURIComponent (s : string) : result string := decode 0 0 0 s.

(** No [%] in [s]: nothing for [decodeURIComponent] to replace. *)
Fixpoint no_escape (s : string) : bool :=
  match s with
  | EmptyString => true
  | String c rest => negb (Ascii.eqb c "%") && no_escape rest
  end.

(** [/p/.test(s)] for a pattern [p] of plain characters: [p] occurs
    somewhere in [s]. *)
Fixpoint occurs (p s : string) : bool :=
  match strip_prefix p s with
  | Some _ => true
  | None =>
      match s with
      | EmptyString => false
      | String _ s' => occurs p s'
      end
  end.

(** ** The order of the own properties of an object

    [Object.keys] and [for ... in] list the keys that are array indices
    first, in ascending numeric order, and then the other string keys in the
    order in which they were created.  An array index is a canonical numeric
    string ([0], or digits that do not start with [0]) of value at most
    [2^32 - 2]. *)
Definition is_array_index (s : string) : bool :=
  test_digits s
  && (String.eqb s "0"
      || negb (match s with String c _ => Ascii.eqb c "0" | EmptyString => false end))
  && (parseFloat s <=? 4294967294)%Z.

(** An object as the list of its properties in the order they were
    created ([own]), and the same properties in the order [Object.keys]
    lists them. *)
Fixpoint insert_index {A} (k : string) (a : A) (l : list (string * A))
    : list (string * A) :=
  match l with
  | [] => [(k, a)]
  | (k', a') :: rest =>
      if (parseFloat k <=? parseFloat k')%Z then (k, a) :: (k', a') :: rest
      else (k', a') :: insert_index k a rest
  end.

Fixpoint sort_indices {A} (l : list (string * A)) : list (string * A) :=
  match l with
  | [] => []
  | (k, a) :: rest => insert_index k a (sort_indices rest)
  end.

(** Ascending numeric order of the keys. *)
Definition ascending {A} (x y : string * A) : Prop :=
  (parseFloat x.1 <= parseFloat y.1)%Z.

Definition own_property_order {A} (own : list (string * A)) : list (string * A) :=
  sort_indices (filter (fun ka => is_array_index ka.1 = true) own)
  ++ filter (fun ka => is_array_index ka.1 = false) own.

End JS.

(* ================================================================== *)
(** * BrowserHistory: [_setState] and [_reset] *)
(* ================================================================== *)

Module Chains.

Import BrowserHistory.

#[local] Open Scope Z_scope.

(** One [.then] of the chain of [_setState] or [_reset]: a call on [this]
    made when the promise before it has resolved, so that it reads [this] as
    it is by then.  An entry that is not there ([undefined]) is [None], and
    so is the [name] that these methods do not pass to [_awaitLocation].
    [then_rebuild] is the last callback of [_reset], with the [entries] and
    the [index] of [action.location]. *)
Inductive Link :=
  | then_awaitLocation (actOrUrl : option ActOrUrl) (name : option string)
  | then_forceGo (n : Z)
  | then_replace (action : option Action)
  | then_rebuild (action_entries : list Action) (action_index : Z).

(** What a chain shows while it runs: the url a wait was for, once it has
    completed; the calls that leave the class; and a wait that was asked for
    ([tryChange] was called) by a promise nobody waits for, with the calls
    its [.then] makes when the wait completes. *)
Inductive Seen :=
  | waited (url : string) (name : option string)
  | called (c : Call)
  | asked (url : string) (name : string) (reaction : list Call).

(** [this], what was seen, and the error the chain was rejected with. *)
Record Run := { this : t; seen : list Seen; rejected : option JS.error }.

(** [entries[i]]: [undefined] outside the array. *)
Definition entry_at (action_entries : list Action) (i : Z) : option Action :=
  if i <? 0 then None else action_entries !! Z.to_nat i.

Definition seen_op (o : Op) (s : t) : t * list Seen :=
  match o with
  | awaitLocation u name => (s, [waited u (Some name)])
  | _ => let '(s1, calls) := run_op o s in (s1, map called calls)
  end.

Fixpoint seen_ops (os : list Op) (s : t) : t * list Seen :=
  match os with
  | [] => (s, [])
  | o :: rest =>
      let '(s1, x1) := seen_op o s in
      let '(s2, x2) := seen_ops rest s1 in
      (s2, x1 ++ x2)
  end.

(** A promise that is made and dropped, as [_reset] does with those of
    [_replace] and [_push]: making it asks for its wait; what comes after
    the wait is left to run when the wait completes. *)
Definition dropped (ops : list Op) (s : t) : list Seen :=
  match ops with
  | awaitLocation u name :: rest => [asked u name (snd (run_ops rest s))]
  | _ => snd (seen_ops ops s)
  end.

(** Running one link once the location it waits for has settled.
    [_awaitLocation(undefined)] and [_replace(undefined)] read a property of
    [undefined]: the promise is rejected with a [TypeError]. *)
Definition run_link (l : Link) (s : t) : Run :=
  match l with
  | then_awaitLocation None _ =>
      {| this := s; seen := []; rejected := Some JS.TypeError |}
  | then_awaitLocation (Some x) name =>
      {| this := s; seen := [waited (url_of x) name]; rejected := None |}
  | then_forceGo n =>
      let '(s1, calls) := _forceGo n s in
      {| this := s1; seen := map called calls; rejected := None |}
  | then_replace None =>
      {| this := s; seen := []; rejected := Some JS.TypeError |}
  | then_replace (Some a) =>
      let '(s1, xs) := seen_ops (_replace s a None 0) s in
      {| this := s1; seen := xs; rejected := None |}
  | then_rebuild [] _ =>
      {| this := s; seen := []; rejected := Some JS.TypeError |}
  | then_rebuild (first :: rest) action_index =>
      let lastIndex := Z.of_nat (length (first :: rest)) - 1 in
      let stayAtEnd := action_index =? lastIndex in
      let asks :=
        dropped (_replace s first None 0) s
          ++ flat_map (fun e => dropped (_push s e None) s) rest in
      if negb stayAtEnd then
        let '(s1, calls) := _forceGo (action_index - lastIndex) s in
        {| this := s1; seen := asks ++ map called calls; rejected := None |}
      else {| this := s; seen := asks; rejected := None |}
  end.

(** A rejected promise skips the [.then]s after it. *)
Fixpoint run_chain (chain : list Link) (s : t) : Run :=
  match chain with
  | [] => {| this := s; seen := []; rejected := None |}
  | l :: rest =>
      match run_link l s with
      | {| this := s1; seen := x1; rejected := Some e |} =>
          {| this := s1; seen := x1; rejected := Some e |}
      | {| this := s1; seen := x1; rejected := None |} =>
          match run_chain rest s1 with
          | {| this := s2; seen := x2; rejected := r |} =>
              {| this := s2; seen := x1 ++ x2; rejected := r |}
          end
      end
  end.

(** [_setState(action, n)], given [action.location.entries].  With [n]
    zero, [_replace(loc)] is called at once and throws when [loc] is
    [undefined]. *)
Definition _setState (s : t) (action_entries : list Action) (n : Z)
    : JS.result (list Link) :=
  let prevUrl := prevUrl s in
  let loc := entry_at action_entries (Z.of_nat (index s) + n) in
  if n =? 0 then
    match loc with
    | Some _ => JS.Ok [then_replace loc]
    | None => JS.Throw JS.TypeError
    end
  else
    JS.Ok [then_awaitLocation (Some (a_url prevUrl)) None;
           then_forceGo n;
           then_awaitLocation (option_map an_action loc) None;
           then_replace loc;
           then_forceGo (- n);
           then_awaitLocation (Some (a_url prevUrl)) None].

(** [_reset(action)], given the [index] and the [entries] of
    [action.location].  [this.entries[0]] is awaited by its url. *)
Definition _reset (s : t) (action_index : Z) (action_entries : list Action)
    : list Link :=
  let prevUrl := prevUrl s in
  let loc := entries s !! 0%nat in
  let n := - Z.of_nat (index s) in
  [then_awaitLocation (Some (a_url prevUrl)) None;
   then_forceGo n;
   then_awaitLocation (option_map a_url loc) None;
   then_rebuild action_entries action_index].

(** What a dropped [_replace(e)] and a dropped [_push(e)] show. *)
Definition replace_asked (s : t) (e : Action) : Seen :=
  asked (prevUrl s) "_replace"
    [history_replaceState (_id s) (location_key e) (state e) (location_url e)].

Definition push_asked (s : t) (e : Action) : Seen :=
  asked (prevUrl s) "_push"
    [history_pushState (_id s) (location_key e) (state e) (location_url e)].

(** The waits asked for among [xs], as [tryChange] receives them one after
    the other, the promise of each numbered from [i] on, each with the calls
    made when it completes. *)
Fixpoint asked_waits (i : nat) (xs : list Seen) : list (RapidChange.Waiter * list Call) :=
  match xs with
  | [] => []
  | asked u name reaction :: rest =>
      ({| RapidChange.target := u; RapidChange.promise := i; RapidChange.name := name |},
       reaction) :: asked_waits (S i) rest
  | _ :: rest => asked_waits i rest
  end.

(** How far the calls of [history.go] among [xs] move the browser, when
    each of them is within the browser's entries. *)
Definition go_delta (x : Seen) : Z :=
  match x with
  | called (history_go n) => n
  | _ => 0
  end.

Definition displacement (xs : list Seen) : Z :=
  foldr (fun x acc => go_delta x + acc) 0 xs.

End Chains.

(* ================================================================== *)
(** * The translator: [src/utils/urlToAction.js] *)
(* ================================================================== *)

Module Translator.

Import JS.

(** A function stored in a route or in the options is known by its
    identity; what it returns is given by [call] below. *)
Definition fn := nat.

(** [defaultParams], [defaultQuery], [defaultState]: an object or a
    function. *)
Inductive Default :=
  | default_object (d : gmap string value)
  | default_function (f : fn).

(** [defaultHash]: a string or a function. *)
Inductive DefaultHash :=
  | default_hash (d : string)
  | default_hash_function (f : fn).

Module Route.
Record t := {
  path : option string;
  fromPath : option fn;
  fromSearch : option fn;
  fromHash : option fn;
  defaultParams : option Default;
  defaultQuery : option Default;
  defaultHash : option DefaultHash;
  defaultState : option Default;
  convertNumbers : option bool;
  capitalizedWords : option bool;
  parseQuery : option fn
}.
End Route.

Module Options.
Record t := {
  fromPath : option fn;
  fromSearch : option fn;
  fromHash : option fn;
  defaultParams : option Default;
  defaultQuery : option Default;
  defaultHash : option DefaultHash;
  defaultState : option Default;
  convertNumbers : option bool;
  capitalizedWords : option bool;
  parseQuery : option fn
}.
End Options.

(** The route table in the order [Object.keys] lists it, which is the
    order in which the table declares its routes except that the types that
    are array indices come first (see [own_property_order]); a table has no
    two entries with the same type. *)
Definition RoutesMap := list (string * Route.t).

Definition keys (routes : RoutesMap) : list string := map fst routes.

(** [routes[type]] *)
Fixpoint get (routes : RoutesMap) (type : string) : option Route.t :=
  match routes with
  | [] => None
  | (k, r) :: rest => if String.eqb k type then Some r else get rest type
  end.

(** What a function is called with. *)
Inductive Arg :=
  | arg (v : value)
  | arg_route (r : Route.t)
  | arg_options (o : Options.t).

Record Location := { pathname : string; search : string; hash : string }.

(** What the pattern of a route extracts from a location before any
    transformer runs: the path parameters in the order in which
    [for (const key in params)] visits them, which is the order of the
    pattern's keys except that the keys that are array indices come first
    (an unfilled optional parameter is [None]), the query and the hash. *)
Record RawMatch := {
  raw_params : list (string * option string);
  raw_query : gmap string value;
  raw_hash : string
}.

Record Match := { m_params : value; m_query : value; m_hash : value }.

Module Action.
Record t := {
  type : string;
  params : value;
  query : value;
  hash : value;
  basename : string;
  state : value
}.
End Action.

(** The [loc] argument: a url string or [{ url, basename, state }].  Only
    a [loc] that carries a url is modelled; on an object without one the
    code throws at [url.replace]. *)
Inductive Loc :=
  | loc_url (url : string)
  | loc_object (url : string) (basename : option string) (state : option (gmap string value)).

(** [const { url, basename = '', state = {} } =
      typeof loc === 'string' ? { url: loc } : loc] *)
Definition url_of_loc (loc : Loc) : string :=
  match loc with loc_url u => u | loc_object u _ _ => u end.

Definition loc_basename (loc : Loc) : string :=
  match loc with loc_url _ => "" | loc_object _ b _ => default "" b end.

Definition loc_state (loc : Loc) : gmap string value :=
  match loc with loc_url _ => ∅ | loc_object _ _ s => default ∅ s end.

(** [route.path] as a condition: a missing or empty pattern is falsy. *)
Definition has_path (route : Route.t) : bool :=
  match Route.path route with
  | Some p => negb (String.eqb p "")
  | None => false
  end.

(** [flag] is truthy / [flag !== false]. *)
Definition on (flag : option bool) : bool :=
  match flag with Some true => true | _ => false end.

Definition not_false (flag : option bool) : bool :=
  match flag with Some false => false | _ => true end.

(** [def] when it is truthy: the empty string is not. *)
Definition truthy_hash_default (d : option DefaultHash) : option DefaultHash :=
  match d with
  | Some (default_hash "") => None
  | other => other
  end.

Section WithCollaborators.

(** The functions of routes and options, which return without raising. *)
Variable call : fn -> list Arg -> value.

(** The pattern matching of [matchUrl] ([./index], with the pattern
    compiler it uses): [None] when the pattern does not consume the
    pathname. *)
Variable matchPath : Location -> Route.t -> Options.t -> option RawMatch.

(** [urlToLocation] of [../history/utils]. *)
Variable urlToLocation : string -> Location.

(** The constant [NOT_FOUND] of [../types] that [notFound] falls back
    on. *)
Variable NOT_FOUND : string.

(** [convertNum] and [capitalize] of [defaultFromPath]. *)
Definition convertNum (route : Route.t) (opts : Options.t) : bool :=
  on (Route.convertNumbers route)
  || (on (Options.convertNumbers opts) && not_false (Route.convertNumbers route)).

Definition capitalize_on (route : Route.t) (opts : Options.t) : bool :=
  on (Route.capitalizedWords route)
  || (on (Options.capitalizedWords opts) && not_false (Route.capitalizedWords route)).

(** [isNumber(val)]: the regular expression is tested on the argument as
    a string, [undefined] on ["undefined"]. *)
Definition isNumber (val : option string) : bool :=
  match val with
  | Some s => test_digits s
  | None => test_digits "undefined"
  end.

Definition defaultFromPath (decodedVal : option string) (key : string)
    (val : option string) (route : Route.t) (opts : Options.t) : result value :=
  if convertNum route opts && isNumber decodedVal then
    Ok (VNum (parseFloat (default "" decodedVal)))
  else if capitalize_on route opts then
    match decodedVal with
    | Some d => Ok (VStr (capitalize d))
    | None => Throw TypeError        (* [undefined.replace] *)
    end
  else
    match Options.fromPath opts with
    | Some f =>
        Ok (call f [arg (of_option decodedVal); arg (VStr key);
                    arg (of_option val); arg_route route; arg_options opts])
    | None => Ok (of_option decodedVal)
    end.

(** [val && decodeURIComponent(val)] *)
Definition decoded (val : option string) : result (option string) :=
  match val with
  | None => Ok None
  | Some s =>
      if String.eqb s "" then Ok (Some s)
      else bind (decodeURIComponent s) (fun d => Ok (Some d))
  end.

(** One turn of the loop of [fromPath]: the value assigned to
    [params[key]]. *)
Definition fromPath_key (key : string) (val : option string)
    (route : Route.t) (opts : Options.t) : result value :=
  bind (decoded val) (fun decodedVal =>
    match Route.fromPath route with
    | Some f =>
        Ok (call f [arg (of_option decodedVal); arg (VStr key);
                    arg (of_option val); arg_route route; arg_options opts])
    | None => defaultFromPath decodedVal key val route opts
    end).

(** The loop of [fromPath] over the properties of [params], which it
    updates in place: an [undefined] result deletes the key. *)
Fixpoint fromPath_loop (props : list (string * option string))
    (params : gmap string value) (route : Route.t) (opts : Options.t)
    : result (gmap string value) :=
  match props with
  | [] => Ok params
  | (key, val) :: rest =>
      bind (fromPath_key key val route opts) (fun v =>
        fromPath_loop rest
          (if is_undefined v then delete key params else <[key := v]> params)
          route opts)
  end.

(** The object [params] as [matchUrl] hands it over. *)
Definition params_object (props : list (string * option string)) : gmap string value :=
  list_to_map (map (fun kv => (fst kv, of_option (snd kv))) props).

(** [{ ...def, ...obj }] *)
Definition spread (def obj : gmap string value) : gmap string value := obj ∪ def.

Definition apply_default (def : option Default) (obj : gmap string value)
    (route : Route.t) (opts : Options.t) : value :=
  match def with
  | Some (default_function f) => call f [arg (VObj obj); arg_route route; arg_options opts]
  | Some (default_object d) => VObj (spread d obj)
  | None => VObj obj
  end.

Definition fromPath (props : list (string * option string))
    (route : Route.t) (opts : Options.t) : result value :=
  bind (fromPath_loop props (params_object props) route opts) (fun params =>
    let def := or_else (Route.defaultParams route) (Options.defaultParams opts) in
    Ok (apply_default def params route opts)).

Definition fromSearch (query : gmap string value)
    (route : Route.t) (opts : Options.t) : value :=
  let from := or_else (Route.fromSearch route) (Options.fromSearch opts) in
  let query :=
    match from with
    | Some f =>
        map_imap (fun key v =>
          let v' := call f [arg v; arg (VStr key); arg_route route; arg_options opts] in
          if is_undefined v' then None else Some v') query
    | None => query
    end in
  let def := or_else (Route.defaultQuery route) (Options.defaultQuery opts) in
  apply_default def query route opts.

Definition fromHash (hash : string) (route : Route.t) (opts : Options.t) : value :=
  let from := or_else (Route.fromHash route) (Options.fromHash opts) in
  let hash :=
    match from with
    | Some f => call f [arg (VStr hash); arg_route route; arg_options opts]
    | None => VStr hash
    end in
  let def := or_else (truthy_hash_default (Route.defaultHash route))
                     (truthy_hash_default (Options.defaultHash opts)) in
  match def with
  | Some (default_hash_function f) => call f [arg hash; arg_route route; arg_options opts]
  | Some (default_hash d) => if truthy hash then hash else VStr d
  | None => hash
  end.

Definition fromState (state : gmap string value)
    (route : Route.t) (opts : Options.t) : value :=
  let def := or_else (Route.defaultState route) (Options.defaultState opts) in
  apply_default def state route opts.

(** [const transformers = { fromPath, fromSearch, fromHash }] *)
Record Transformers := {
  t_fromPath : list (string * option string) -> Route.t -> Options.t -> result value;
  t_fromSearch : gmap string value -> Route.t -> Options.t -> value;
  t_fromHash : string -> Route.t -> Options.t -> value
}.

Definition transformers : Transformers :=
  {| t_fromPath := fromPath; t_fromSearch := fromSearch; t_fromHash := fromHash |}.

(** Modelled from the spec: [matchUrl] of [./index], which is not among
    the sources: when the pattern of the route matches, the transformers
    are run on the raw parameters, query and hash to give
    [{ params, query, hash }]; otherwise the result is [null]. *)
Definition matchUrl (l : Location) (matchers : Route.t) (tr : Transformers)
    (route : Route.t) (opts : Options.t) : result (option Match) :=
  match matchPath l matchers opts with
  | None => Ok None
  | Some raw =>
      bind (t_fromPath tr (raw_params raw) route opts) (fun params =>
        Ok (Some {| m_params := params;
                    m_query := t_fromSearch tr (raw_query raw) route opts;
                    m_hash := t_fromHash tr (raw_hash raw) route opts |}))
  end.

(** Modelled from the spec: [notFound] of [../actions], which is not
    among the sources: the given type, "else the unscoped NOT_FOUND
    type", and the state passed through. *)
Definition notFound (state : value) (type : option string) : string * value :=
  (match type with
   | Some t => if String.eqb t "" then NOT_FOUND else t
   | None => NOT_FOUND
   end, state).

(** [(routes.NOT_FOUND.parseQuery || opts.parseQuery)(search)] *)
Definition parseQuery (search : string) (routes : RoutesMap) (opts : Options.t)
    : result value :=
  match get routes "NOT_FOUND" with
  | None => Throw TypeError
  | Some r =>
      match or_else (Route.parseQuery r) (Options.parseQuery opts) with
      | Some f => Ok (call f [arg (VStr search)])
      | None => Throw TypeError
      end
  end.

(** [{ type, params, query, hash, basename, state: st }] with
    [st = fromState(state, route, opts)]. *)
Definition matched_action (type : string) (route : Route.t) (m : Match)
    (opts : Options.t) (basename : string) (state : gmap string value) : Action.t :=
  let st := fromState state route opts in
  {| Action.type := type;
     Action.params := m_params m;
     Action.query := m_query m;
     Action.hash := m_hash m;
     Action.basename := basename;
     Action.state := st |}.

(** The [for] loop of [urlToAction] over [types]; [None] when it ends
    without a [return]. *)
Fixpoint urlToAction_loop (types : list string) (l : Location)
    (routes : RoutesMap) (opts : Options.t) (basename : string)
    (state : gmap string value) : result (option Action.t) :=
  match types with
  | [] => Ok None
  | type :: rest =>
      match get routes type with
      | None => Throw TypeError
      | Some route =>
          bind (matchUrl l route transformers route opts) (fun match_ =>
            match match_ with
            | Some m => Ok (Some (matched_action type route m opts basename state))
            | None => urlToAction_loop rest l routes opts basename state
            end)
      end
  end.

(** [Object.keys(routes).filter(type => routes[type].path)] *)
Definition path_types (routes : RoutesMap) : list string :=
  filter (fun type => from_option has_path false (get routes type) = true) (keys routes).

(** The location the routes are matched against:
    [urlToLocation(url.replace(basename, ''))]. *)
Definition stripped_location (loc : Loc) : Location :=
  urlToLocation (replace_first (loc_basename loc) (url_of_loc loc)).

(** The type of the NOT_FOUND action:
    [routes[`${scene}/NOT_FOUND`] && `${scene}/NOT_FOUND`], completed by
    [notFound]. *)
Definition scoped_not_found (routes : RoutesMap) (scene : string) : option string :=
  let scoped := (scene ++ "/NOT_FOUND")%string in
  match get routes scoped with Some _ => Some scoped | None => None end.

(** The default export. *)
Definition urlToAction (loc : Loc) (routes : RoutesMap) (opts : Options.t)
    (scene : string) : result Action.t :=
  let basename := loc_basename loc in
  let state := loc_state loc in
  let types := path_types routes in
  let l := stripped_location loc in
  bind (urlToAction_loop types l routes opts basename state) (fun found =>
    match found with
    | Some action => Ok action
    | None =>
        let type := scoped_not_found routes scene in
        let '(nf_type, nf_state) := notFound (VObj state) type in
        bind (if String.eqb (search l) "" then Ok (VObj ∅)
              else parseQuery (search l) routes opts) (fun query =>
          Ok {| Action.type := nf_type;
                Action.params := VObj ∅;
                Action.query := query;
                Action.hash := VStr (hash l);
                Action.basename := basename;
                Action.state := nf_state |})
    end).

(** ** The translation as the specification words it

    "Iterate route table in order over path-bearing routes; on first
    successful match ... return immediately": the first entry of the table
    that carries a path and whose pattern matches gives the action; the
    entries after it are not looked at. *)
Fixpoint first_match (table : RoutesMap) (l : Location) (opts : Options.t)
    (basename : string) (state : gmap string value) : result (option Action.t) :=
  match table with
  | [] => Ok None
  | (type, route) :: rest =>
      if has_path route then
        bind (matchUrl l route transformers route opts) (fun match_ =>
          match match_ with
          | Some m => Ok (Some (matched_action type route m opts basename state))
          | None => first_match rest l opts basename state
          end)
      else first_match rest l opts basename state
  end.

(** The function [parseQuery] calls, when the table has a [NOT_FOUND] route
    and it or the options carry one. *)
Definition parseQuery_hook (routes : RoutesMap) (opts : Options.t) : option fn :=
  match get routes "NOT_FOUND" with
  | Some r => or_else (Route.parseQuery r) (Options.parseQuery opts)
  | None => None
  end.

End WithCollaborators.

End Translator.

(* ================================================================== *)
(** * The callback middleware *)
(* ================================================================== *)

Module Callbacks.

Import JS.

(** The callbacks of a route or of the options under their names; a
    callback is given by what the promise of its call resolves to. *)
Definition Table := string -> option value.

(** What the middleware reads of [req].  [options_shouldCall] is
    [req.options.shouldCall], given by the truthiness of what it returns for
    [(req, name, config)]; a route that is not there is [None]. *)
Record Req (LocationState : Type) := {
  options_shouldCall : option (string -> bool -> bool);
  getLocationState : LocationState;
  route : option Table;
  prevRoute : option Table;
  options : Table
}.
Arguments options_shouldCall {LocationState} r.
Arguments getLocationState {LocationState} r.
Arguments route {LocationState} r.
Arguments prevRoute {LocationState} r.
Arguments options {LocationState} r.

(** The calls the middleware makes, in order ([noop] left out). *)
Inductive Called := routeCb | globalCb | next.

(** [const isFalse = (a, b) => a === false || b === false] *)
Definition isFalse (a b : value) : bool :=
  match a, b with
  | VBool false, _ => true
  | _, VBool false => true
  | _, _ => false
  end.

Section WithEnvironment.

(** The location state and its [kind]. *)
Variable LocationState : Type.
Variable kind : LocationState -> string.

(** [isLoadSSR] of [../utils/isClientLoadSSR], with or without its second
    argument, and what [isServer()] of [../utils/isServer] returns. *)
Variable isLoadSSR : LocationState -> option string -> bool.
Variable isServer : bool.

Definition defaultShouldCall (state : LocationState) (name : string) : bool :=
  if isLoadSSR state (Some "init")
     && (occurs "beforeLeave" name || occurs "beforeEnter" name) then false
  else if isServer && (occurs "onLeave" name || occurs "onEnter" name) then false
  else if isLoadSSR state None && String.eqb name "thunk" then false
  else if String.eqb name "beforeLeave" && String.eqb (kind state) "init" then false
  else if String.eqb name "onLeave" && String.eqb (kind state) "load" then false
  else true.

(** [shouldCall(req, name, config)] with
    [shouldCall = req.options.shouldCall || defaultShouldCall]. *)
Definition shouldCall (req : Req LocationState) (name : string) (prev : bool) : bool :=
  match options_shouldCall req with
  | Some f => f name prev
  | None => defaultShouldCall (getLocationState req) name
  end.

(** The middleware [(name, config) => async (req, next) => ...], with
    [prev] the truthiness of [config.prev] and [next_result] what [next()]
    resolves to: the value the returned promise resolves to and the calls
    made, or the error it is rejected with. *)
Definition middleware (name : string) (prev : bool) (req : Req LocationState)
    (next_result : value) : result (value * list Called) :=
  if negb (shouldCall req name prev) then Ok (next_result, [next])
  else
    match (if prev then prevRoute req else route req) with
    | None => Throw TypeError
    | Some r =>
        let a := default VUndefined (r name) in
        let b := default VUndefined (options req name) in
        let calls :=
          (match r name with Some _ => [routeCb] | None => [] end)
          ++ (match options req name with Some _ => [globalCb] | None => [] end) in
        if isFalse a b then Ok (VBool false, calls)
        else Ok (if truthy a then a else b, calls ++ [next])
    end.

End WithEnvironment.

End Callbacks.

(* ================================================================== *)
(** * Sample data *)
(* ================================================================== *)

Module Sample.

Import BrowserHistory.

(** Seven entries, the user on the sixth (index 5), nothing pending. *)
Definition urls : list string := ["/0"; "/1"; "/2"; "/3"; "/4"; "/5"; "/6"].

Definition at_5 : BrowserHistory.t :=
  {| _popForced := false; pendingPop := None; url := "/5"; prevUrl := "/4";
     entries := urls; index := 5; _id := "session"; currentPop := None;
     closures := [] |}.

(** The action a pop event carries when the browser shows [u]. *)
Definition reporting (u : string) : Action :=
  {| state := "{}"; location_key := "0123456789"; location_url := u |}.

(** The same engine once the back press from 5 to 4 is pending. *)
Definition back_pending : BrowserHistory.t := fst (handlePop (reporting "/4") at_5).

(** Two waits asked for while the browser still shows [/a], and the
    timers that find it at [/b] and then at [/c]. *)
Definition wait_b : RapidChange.Waiter :=
  {| RapidChange.target := "/b"; RapidChange.promise := 1; RapidChange.name := "jump prev" |}.

Definition wait_c : RapidChange.Waiter :=
  {| RapidChange.target := "/c"; RapidChange.promise := 2; RapidChange.name := "jump loc" |}.


End Sample.

Module SampleRoutes.

Import JS Translator.

(** Modelled from the spec: the route matcher of the spec's section 4.1,
    which is not among the sources, for patterns whose segments are literal,
    named ([:name]) or optional and named ([:name?]): "the full pathname
    must be consumed by the pattern", and the match gives the "raw
    (still-encoded) path parameters" and the raw hash; an optional segment
    that is not filled gives [undefined].  The query is left empty. *)
Fixpoint split_slash (s : string) : list string :=
  match s with
  | EmptyString => [EmptyString]
  | String c rest =>
      let l := split_slash rest in
      if Ascii.eqb c "/" then EmptyString :: l
      else match l with
           | h :: t => String c h :: t
           | [] => [String c EmptyString]
           end
  end.

Inductive Segment :=
  | literal (s : string)
  | named (name : string)
  | optional (name : string).

(** The string without its last character when that is [?]. *)
Fixpoint optional_name (s : string) : option string :=
  match s with
  | EmptyString => None
  | String c EmptyString => if Ascii.eqb c "?" then Some EmptyString else None
  | String c rest => option_map (String c) (optional_name rest)
  end.

Definition segment (s : string) : Segment :=
  match s with
  | String c name =>
      if Ascii.eqb c ":" then
        match optional_name name with
        | Some n => optional n
        | None => named name
        end
      else literal s
  | EmptyString => literal s
  end.

Fixpoint match_segments (pattern : list Segment) (path : list string)
    : option (list (string * option string)) :=
  match pattern, path with
  | [], [] => Some []
  | [], _ :: _ => None
  | literal p :: ps, s :: ss =>
      if String.eqb p s then match_segments ps ss else None
  | named n :: ps, s :: ss =>
      if String.eqb s "" then None
      else option_map (cons (n, Some s)) (match_segments ps ss)
  | optional n :: ps, s :: ss =>
      if String.eqb s "" then None
      else option_map (cons (n, Some s)) (match_segments ps ss)
  | optional n :: ps, [] => option_map (cons (n, None)) (match_segments ps [])
  | _ :: _, [] => None
  end.

Definition matchPath (l : Location) (route : Route.t) (opts : Options.t)
    : option RawMatch :=
  match Route.path route with
  | Some p =>
      option_map
        (fun props => {| raw_params := props; raw_query := ∅; raw_hash := hash l |})
        (match_segments (map segment (split_slash p)) (split_slash (pathname l)))
  | None => None
  end.

(** Modelled from the spec: [urlToLocation], which is not among the
    sources: the view [{ pathname, search, hash }] of a url, the hash being
    what follows the first [#] and the search what follows the first [?]
    before it. *)
Fixpoint split_at (c : ascii) (s : string) : string * option string :=
  match s with
  | EmptyString => (EmptyString, None)
  | String a rest =>
      if Ascii.eqb a c then (EmptyString, Some rest)
      else let '(before, after) := split_at c rest in (String a before, after)
  end.

Definition urlToLocation (url : string) : Location :=
  let '(before_hash, h) := split_at "#" url in
  let '(p, q) := split_at "?" before_hash in
  {| pathname := p; search := default "" q; hash := default "" h |}.

(** Three functions a table may carry: [v => v || 'none'],
    [search => ({ search })] and [() => ({ page: 1 })]. *)
Definition or_none : fn := 1.
Definition keep_search : fn := 2.
Definition first_page : fn := 3.

Definition call (f : fn) (args : list Arg) : value :=
  match f, args with
  | 1, arg v :: _ => if truthy v then v else VStr "none"
  | 2, arg v :: _ => VObj {[ "search" := v ]}
  | 3, _ => VObj {[ "page" := VNum 1 ]}
  | _, _ => VUndefined
  end.

Definition NOT_FOUND : string := "NOT_FOUND".

Definition no_options : Options.t :=
  {| Options.fromPath := None; Options.fromSearch := None; Options.fromHash := None;
     Options.defaultParams := None; Options.defaultQuery := None;
     Options.defaultHash := None; Options.defaultState := None;
     Options.convertNumbers := None; Options.capitalizedWords := None;
     Options.parseQuery := None |}.

(** [{ defaultParams: () => ({ page: 1 }) }] *)
Definition first_page_options : Options.t :=
  {| Options.fromPath := None; Options.fromSearch := None; Options.fromHash := None;
     Options.defaultParams := Some (default_function first_page);
     Options.defaultQuery := None;
     Options.defaultHash := None; Options.defaultState := None;
     Options.convertNumbers := None; Options.capitalizedWords := None;
     Options.parseQuery := None |}.

(** A route that has only a path. *)
Definition at_path (p : string) : Route.t :=
  {| Route.path := Some p; Route.fromPath := None; Route.fromSearch := None;
     Route.fromHash := None; Route.defaultParams := None; Route.defaultQuery := None;
     Route.defaultHash := None; Route.defaultState := None;
     Route.convertNumbers := None; Route.capitalizedWords := None;
     Route.parseQuery := None |}.

Definition pathless : Route.t :=
  {| Route.path := None; Route.fromPath := None; Route.fromSearch := None;
     Route.fromHash := None; Route.defaultParams := None; Route.defaultQuery := None;
     Route.defaultHash := None; Route.defaultState := None;
     Route.convertNumbers := None; Route.capitalizedWords := None;
     Route.parseQuery := None |}.

(** [{ path: '/item/:id?', capitalizedWords: true }] *)
Definition item : Route.t :=
  {| Route.path := Some "/item/:id?"; Route.fromPath := None; Route.fromSearch := None;
     Route.fromHash := None; Route.defaultParams := None; Route.defaultQuery := None;
     Route.defaultHash := None; Route.defaultState := None;
     Route.convertNumbers := None; Route.capitalizedWords := Some true;
     Route.parseQuery := None |}.

(** [{ path: '/post/:id?', fromPath: v => v || 'none' }] *)
Definition post : Route.t :=
  {| Route.path := Some "/post/:id?"; Route.fromPath := Some or_none;
     Route.fromSearch := None;
     Route.fromHash := None; Route.defaultParams := None; Route.defaultQuery := None;
     Route.defaultHash := None; Route.defaultState := None;
     Route.convertNumbers := None; Route.capitalizedWords := None;
     Route.parseQuery := None |}.

(** [{ path: '/list/:page?', convertNumbers: true, defaultParams: { page: 1, size: 20 } }] *)
Definition list_ : Route.t :=
  {| Route.path := Some "/list/:page?"; Route.fromPath := None; Route.fromSearch := None;
     Route.fromHash := None;
     Route.defaultParams := Some (default_object {[ "page" := VNum 1; "size" := VNum 20 ]});
     Route.defaultQuery := None;
     Route.defaultHash := None; Route.defaultState := None;
     Route.convertNumbers := Some true; Route.capitalizedWords := None;
     Route.parseQuery := None |}.

(** [{ path: '/not-found', parseQuery: search => ({ search }) }] *)
Definition not_found_route : Route.t :=
  {| Route.path := Some "/not-found"; Route.fromPath := None; Route.fromSearch := None;
     Route.fromHash := None; Route.defaultParams := None; Route.defaultQuery := None;
     Route.defaultHash := None; Route.defaultState := None;
     Route.convertNumbers := None; Route.capitalizedWords := None;
     Route.parseQuery := Some keep_search |}.

Definition routes : RoutesMap :=
  [("HOME", at_path "/"); ("NEVER_USED_PATHLESS", pathless); ("ITEM", item);
   ("POST", post); ("LIST", list_); ("NOT_FOUND", not_found_route)].

Definition translate (loc : Loc) : result Action.t :=
  urlToAction call matchPath urlToLocation NOT_FOUND loc routes no_options "".

(** A table that has no [NOT_FOUND] route, and options that carry
    [parseQuery: search => ({ search })]. *)
Definition routes_without_NOT_FOUND : RoutesMap :=
  [("HOME", at_path "/"); ("POST", post)].

(** A table in which the type [1] is declared after the type [B], both
    with the same path, and a table that has the [NOT_FOUND] route of the
    scene [admin] only. *)
Definition numbered_routes : RoutesMap :=
  [("B", at_path "/x"); ("1", at_path "/x")].

Definition scene_routes : RoutesMap :=
  [("HOME", at_path "/"); ("admin/NOT_FOUND", not_found_route)].

Definition parseQuery_options : Options.t :=
  {| Options.fromPath := None; Options.fromSearch := None; Options.fromHash := None;
     Options.defaultParams := None; Options.defaultQuery := None;
     Options.defaultHash := None; Options.defaultState := None;
     Options.convertNumbers := None; Options.capitalizedWords := None;
     Options.parseQuery := Some keep_search |}.

End SampleRoutes.

(* ================================================================== *)
(** * Properties of the pop handling *)
(* ================================================================== *)

Section PopHandling.

Import BrowserHistory.
#[local] Open Scope Z_scope.

Lemma set_closures_same s : set_closures (closures s) s = s.
Proof. by destruct s. Qed.

(** A pop event that is not suppressed makes exactly one call. *)
Lemma handlePop_unforced_one_call loc s :
  _popForced s = false -> exists c, snd (handlePop loc s) = [c].
Proof.
  intros H. unfold handlePop. rewrite H.
  destruct (truthy_pendingPop (pendingPop s)); simpl.
  - destruct (String.eqb _ _); eauto.
  - eauto.
Qed.

(** While a pop is pending, a pop event never reaches the gate. *)
Lemma handlePop_pending_no_jump loc s :
  truthy_pendingPop (pendingPop s) = true ->
  filter (fun c => is_jump c = true) (snd (handlePop loc s)) = []
  /\ truthy_pendingPop (pendingPop (fst (handlePop loc s))) = true.
Proof.
  intros H. unfold handlePop.
  destruct (_popForced s); simpl; [by rewrite H|].
  rewrite H. simpl. by destruct (String.eqb _ _).
Qed.

Lemma handlePops_pending_no_jump locs : forall s,
  truthy_pendingPop (pendingPop s) = true ->
  filter (fun c => is_jump c = true) (snd (handlePops locs s)) = [].
Proof.
  induction locs as [|loc rest IH]; intros s H; [done|].
  simpl. destruct (handlePop_pending_no_jump loc s H) as [Hj Hp].
  destruct (handlePop loc s) as [s1 c1]; simpl in *.
  specialize (IH s1 Hp). destruct (handlePops rest s1) as [s2 c2]; simpl in *.
  by rewrite filter_app, Hj, IH.
Qed.

(** However many pop events arrive in a row, the gate is asked at most
    once. *)
Lemma handlePops_one_jump locs : forall s,
  (length (filter (fun c => is_jump c = true) (snd (handlePops locs s))) <= 1)%nat.
Proof.
  induction locs as [|loc rest IH]; intros s; [simpl; lia|].
  simpl. destruct (truthy_pendingPop (pendingPop s)) eqn:Hp.
  - destruct (handlePop_pending_no_jump loc s Hp) as [Hj Hp'].
    destruct (handlePop loc s) as [s1 c1]; simpl in *.
    pose proof (handlePops_pending_no_jump rest s1 Hp') as Hr.
    destruct (handlePops rest s1) as [s2 c2]; simpl in *.
    rewrite filter_app, Hj, Hr. simpl. lia.
  - unfold handlePop. destruct (_popForced s) eqn:Hf.
    + specialize (IH (set_popForced false s)).
      destruct (handlePops rest (set_popForced false s)) as [s2 c2]. exact IH.
    + rewrite Hp. simpl.
      match goal with |- context [handlePops rest ?s1] =>
        pose proof (handlePops_pending_no_jump rest s1) as Hr;
        destruct (handlePops rest s1) as [s2 c2] end.
      simpl in *. rewrite Hr; [simpl; lia|]. by destruct (_isNext s loc).
Qed.

(** ** The [revertPop] closure *)

Lemma revertPop_fresh c n s :
  closures s !! c = Some {| captured_n := n; reverted := false |} ->
  revertPop c s =
    (set_closures (<[c := {| captured_n := n; reverted := true |}]> (closures s))
       (set_popForced true s),
     [history_go (- n)]).
Proof.
  intros H. unfold revertPop. rewrite H. simpl.
  by replace (n * -1) with (- n) by lia.
Qed.

Lemma revertPop_spent c cl s :
  closures s !! c = Some cl -> reverted cl = true -> revertPop c s = (s, []).
Proof.
  intros H Hr. unfold revertPop. rewrite H, Hr. simpl.
  destruct cl as [n r]; simpl in *; subst r.
  by rewrite list_insert_id, set_closures_same.
Qed.

(** Once [reverted] is set it stays set, whatever else happens. *)
Lemma feed1_keeps_reverted i s c cl :
  closures s !! c = Some cl -> reverted cl = true ->
  closures (fst (feed1 i s)) !! c = Some cl.
Proof.
  intros H Hr. destruct i as [loc|c'|n]; simpl; [| |done].
  - unfold handlePop. destruct (_popForced s); [done|].
    destruct (truthy_pendingPop (pendingPop s)); simpl.
    + by destruct (String.eqb _ _).
    + by apply lookup_app_l_Some.
  - unfold revertPop. destruct (closures s !! c') as [cl'|] eqn:H'; [|done].
    destruct (reverted cl') eqn:Hr'; simpl.
    + destruct (decide (c' = c)) as [->|Hne].
      * rewrite H in H'. injection H' as <-.
        destruct cl as [n r]; simpl in *; subst r. by rewrite list_insert_id.
      * by rewrite list_lookup_insert_ne.
    + destruct (decide (c' = c)) as [->|Hne].
      * rewrite H in H'. injection H' as <-. congruence.
      * by rewrite list_lookup_insert_ne.
Qed.

Lemma feed_keeps_reverted inputs : forall s c cl,
  closures s !! c = Some cl -> reverted cl = true ->
  closures (fst (feed inputs s)) !! c = Some cl.
Proof.
  induction inputs as [|i rest IH]; intros s c cl H Hr; [done|].
  simpl. pose proof (feed1_keeps_reverted i s c cl H Hr) as H1.
  destruct (feed1 i s) as [s1 c1]; simpl in *.
  specialize (IH s1 c cl H1 Hr).
  by destruct (feed rest s1) as [s2 c2].
Qed.

Lemma revertPops_spent k : forall c cl s,
  closures s !! c = Some cl -> reverted cl = true -> revertPops k c s = (s, []).
Proof.
  induction k as [|k IH]; intros c cl s H Hr; [done|].
  simpl. rewrite (revertPop_spent c cl s H Hr).
  by rewrite (IH c cl s H Hr).
Qed.

Lemma revertPops_fresh k c n s :
  closures s !! c = Some {| captured_n := n; reverted := false |} ->
  snd (revertPops (S k) c s) = [history_go (- n)].
Proof.
  intros H. simpl. rewrite (revertPop_fresh c n s H).
  rewrite (revertPops_spent k c {| captured_n := n; reverted := true |}); [done| |done].
  simpl. apply list_lookup_insert_eq. by eapply lookup_lt_Some.
Qed.

(** ** The claims *)

(** C1 (as the code has it).  A pop event that arrives while a pop is
    pending and the forced flag is down never reaches the gate: it is undone
    at once by one forced navigation.  When the reported url is the engine's
    own url the event is taken to go the other way ([n] is the pending delta
    with its sign flipped) and the navigation is by [-n], the pending delta
    itself; otherwise the navigation is by the inverse of the pending delta.
    However many pop events follow one another, the gate is asked at most
    once; and a back press followed by a pop event that reports the engine's
    own url gives one call of the gate and one forced navigation by [-1]. *)
Theorem handlePop_while_pending (loc : Action) (s : BrowserHistory.t) (p : Z) :
  _popForced s = false ->
  pendingPop s = Some p ->
  p <> 0 ->
  handlePop loc s =
    (set_popForced true s,
     [history_go (if String.eqb (location_url loc) (url s) then p else - p)])
  /\ (forall locs,
        filter (fun c => is_jump c = true) (snd (handlePops (loc :: locs) s)) = [])
  /\ (forall locs s0,
        (length (filter (fun c => is_jump c = true) (snd (handlePops locs s0))) <= 1)%nat)
  /\ (forall s0 loc1 loc2,
        _popForced s0 = false ->
        truthy_pendingPop (pendingPop s0) = false ->
        _isNext s0 loc1 = false ->
        location_url loc2 = url s0 ->
        snd (handlePops [loc1; loc2] s0)
          = [jump (-1) back (length (closures s0)); history_go (-1)]).
Proof.
  intros Hf Hp Hnz.
  assert (Ht : truthy_pendingPop (pendingPop s) = true).
  { rewrite Hp. simpl. apply negb_true_iff. by apply Z.eqb_neq. }
  repeat split.
  - unfold handlePop, _forceGo. rewrite Hf, Ht, Hp. simpl.
    destruct (String.eqb _ _); do 3 f_equal; lia.
  - intros locs. by apply handlePops_pending_no_jump.
  - intros locs s0. apply handlePops_one_jump.
  - intros s0 loc1 loc2 Hf0 Hp0 Hn Hu.
    unfold handlePops, handlePop. rewrite Hf0, Hp0, Hn. simpl.
    rewrite Hu, String.eqb_refl, Hf0. reflexivity.
Qed.

Lemma handlePop_while_pending_witness :
  handlePop (Sample.reporting "/5") Sample.back_pending =
    (set_popForced true Sample.back_pending, [history_go (-1)])
  /\ snd (handlePops [Sample.reporting "/4"; Sample.reporting "/5"] Sample.at_5)
      = [jump (-1) back 0; history_go (-1)].
Proof.
  destruct (handlePop_while_pending (Sample.reporting "/5") Sample.back_pending (-1))
    as (H1 & _ & _ & H4); [reflexivity | reflexivity | lia |].
  split; [exact H1|].
  apply (H4 Sample.at_5); reflexivity.
Defined.

(** C1 as the claim words it fails twice.  In the double back-press
    scenario the second pop event, which reports the url the engine still
    has, is answered by [history.go(-1)], not by [+1], the flipped delta;
    and a pop event that finds the forced flag up while a pop is pending is
    swallowed without any navigation. *)
Lemma double_pop_goes_by_pending_delta :
  snd (handlePops [Sample.reporting "/4"; Sample.reporting "/5"] Sample.at_5)
    = [jump (-1) back 0; history_go (-1)]
  /\ snd (handlePops [Sample.reporting "/4"; Sample.reporting "/5"] Sample.at_5)
      <> [jump (-1) back 0; history_go 1]
  /\ pendingPop (set_popForced true Sample.back_pending) = Some (-1)
  /\ handlePop (Sample.reporting "/5") (set_popForced true Sample.back_pending)
      = (Sample.back_pending, []).
Proof. repeat split; done. Qed.

(** C4 (as the code has it).  Every forced navigation, whether [_forceGo] is
    called from outside, by [handlePop] or by a [revertPop] closure, raises
    the forced flag and calls [history.go].  While the flag is up the next
    pop event is suppressed: it makes no call, starts no pop and changes
    nothing but the flag, which it lowers.  The pop event after that one is
    handled, so the suppression does not carry over to a second pop event.
    The flag is a boolean: it tells that a navigation was forced, not how
    many were. *)
Theorem forced_pop_suppressed_once :
  (forall n s, _forceGo n s = (set_popForced true s, [history_go n]))
  /\ (forall i s n,
        history_go n ∈ snd (feed1 i s) -> _popForced (fst (feed1 i s)) = true)
  /\ (forall loc s,
        _popForced s = true -> handlePop loc s = (set_popForced false s, []))
  /\ (forall loc1 loc2 s,
        _popForced s = true ->
        _popForced (fst (handlePop loc1 s)) = false
        /\ exists c, snd (handlePop loc2 (fst (handlePop loc1 s))) = [c]).
Proof.
  split; [done|]. split; [|split].
  - intros i s n Hin. destruct i as [loc|c|m]; simpl in *; [| |done].
    + unfold handlePop in *. destruct (_popForced s) eqn:Hf.
      * by apply elem_of_nil in Hin.
      * destruct (truthy_pendingPop (pendingPop s)); simpl in *.
        -- by destruct (String.eqb _ _).
        -- apply list_elem_of_singleton in Hin. discriminate.
    + unfold revertPop in *. destruct (closures s !! c) as [cl|]; simpl in *.
      * destruct (reverted cl); simpl in *; [by apply elem_of_nil in Hin|done].
      * by apply elem_of_nil in Hin.
  - intros loc s Hf. unfold handlePop. by rewrite Hf.
  - intros loc1 loc2 s Hf. unfold handlePop at 1 3. rewrite Hf. simpl.
    split; [done|]. by apply handlePop_unforced_one_call.
Qed.

(** C4 as the claim words it fails: a second back press while a back press
    is pending is undone by a forced navigation, the gate then reverts the
    pending pop by another one, and of the two pop events that report these
    two navigations only the first is suppressed; the second is handled as
    a pop of the user and answered by [history.go(-1)]. *)
Lemma second_forced_navigation_not_suppressed :
  snd (feed [pop_event (Sample.reporting "/4");
             pop_event (Sample.reporting "/3");
             revertPop_called 0;
             pop_event (Sample.reporting "/4");
             pop_event (Sample.reporting "/5")] Sample.at_5)
  = [jump (-1) back 0; history_go 1; history_go 1; history_go (-1)].
Proof. reflexivity. Qed.

Lemma forced_pop_suppressed_once_witness :
  handlePop (Sample.reporting "/5") (set_popForced true Sample.back_pending)
    = (Sample.back_pending, [])
  /\ exists c,
       snd (handlePop (Sample.reporting "/3")
              (fst (handlePop (Sample.reporting "/5")
                      (set_popForced true Sample.back_pending)))) = [c].
Proof.
  destruct forced_pop_suppressed_once as (_ & _ & H3 & H4).
  split.
  - apply (H3 (Sample.reporting "/5") (set_popForced true Sample.back_pending)).
    reflexivity.
  - apply (H4 (Sample.reporting "/5") (Sample.reporting "/3")
             (set_popForced true Sample.back_pending)).
    reflexivity.
Defined.

(** The forced flag does not count: after two forced navigations in a row
    the next pop event is suppressed and the one after it is handled. *)
Theorem forced_flag_is_a_boolean (n m : Z) (s : BrowserHistory.t) (loc1 loc2 : Action) :
  let s2 := fst (_forceGo m (fst (_forceGo n s))) in
  handlePop loc1 s2 = (set_popForced false s, [])
  /\ (exists c, snd (handlePop loc2 (fst (handlePop loc1 s2))) = [c]).
Proof.
  simpl. split; [done|]. by apply handlePop_unforced_one_call.
Qed.

(** C9.  [_jump] with [n] zero is the plain [_replace] of the action: it
    waits for the previous url and replaces the native state.  With [n]
    not zero and [isPop] set it does nothing.  Otherwise it waits for the
    previous url, forces the navigation by [n], waits for the url of the
    action and replaces the native state there, in that order; run, these
    steps call [history.go(n)] and then [history.replaceState]. *)
Theorem _jump_steps (s : BrowserHistory.t) (action : Action) (n : Z) (isPop : bool) :
  let replace_ :=
    replaceState (_id s) (location_key action) (state action) (location_url action) in
  (n = 0 ->
     _jump s action n isPop = _replace s action None 0
     /\ _jump s action n isPop = [awaitLocation (prevUrl s) "_replace"; replace_])
  /\ (n <> 0 -> isPop = true -> _jump s action n isPop = [])
  /\ (n <> 0 -> isPop = false ->
       _jump s action n isPop =
         [awaitLocation (prevUrl s) "jump prev";
          forceGo n;
          awaitLocation (location_url action) "jump loc";
          awaitLocation (location_url action) "_replace";
          replace_]
       /\ snd (run_ops (_jump s action n isPop) s) =
           [history_go n;
            history_replaceState (_id s) (location_key action) (state action)
              (location_url action)]).
Proof.
  simpl. unfold _jump. split; [|split].
  - by intros ->.
  - intros Hn ->. apply Z.eqb_neq in Hn. by rewrite Hn.
  - intros Hn ->. apply Z.eqb_neq in Hn. by rewrite Hn.
Qed.

Lemma _jump_steps_witness :
  _jump Sample.at_5 (Sample.reporting "/3") 0 true =
    [awaitLocation "/4" "_replace"; replaceState "session" "0123456789" "{}" "/3"]
  /\ _jump Sample.at_5 (Sample.reporting "/3") (-2) true = []
  /\ snd (run_ops (_jump Sample.at_5 (Sample.reporting "/3") (-2) false) Sample.at_5) =
      [history_go (-2); history_replaceState "session" "0123456789" "{}" "/3"].
Proof.
  split; [|split].
  - apply (_jump_steps Sample.at_5 (Sample.reporting "/3") 0 true). reflexivity.
  - apply (_jump_steps Sample.at_5 (Sample.reporting "/3") (-2) true); [lia | reflexivity].
  - apply (_jump_steps Sample.at_5 (Sample.reporting "/3") (-2) false); [lia | reflexivity].
Defined.

(** C10.  The closure [revertPop] that a pop event hands to the gate forces
    the inverse navigation, by [-n], the first time it is called and never
    again: any number of calls in a row make that one call of [history.go],
    and after the first call, whatever pop events, forced navigations and
    calls of closures come in between, a further call changes nothing and
    calls nothing. *)
Theorem revertPop_idempotent (loc : Action) (s : BrowserHistory.t) :
  _popForced s = false ->
  truthy_pendingPop (pendingPop s) = false ->
  exists n kind c s1,
    handlePop loc s = (s1, [jump n kind c])
    /\ pendingPop s1 = Some n
    /\ snd (revertPop c s1) = [history_go (- n)]
    /\ (forall k, snd (revertPops (S k) c s1) = [history_go (- n)])
    /\ (forall k, revertPops k c (fst (revertPop c s1)) = (fst (revertPop c s1), []))
    /\ (forall inputs,
          let s2 := fst (feed inputs (fst (revertPop c s1))) in
          revertPop c s2 = (s2, [])).
Proof.
  intros Hf Hp. unfold handlePop. rewrite Hf, Hp. simpl.
  set (n := if _isNext s loc then 1 else -1).
  set (c := length (closures s)).
  set (s1 := set_currentPop (Some c)
    (set_closures (closures s ++ [{| captured_n := n; reverted := false |}])
       (set_pendingPop (Some n) s))).
  exists n, (if n =? -1 then back else next), c, s1. split; [reflexivity|].
  assert (Hc : closures s1 !! c = Some {| captured_n := n; reverted := false |}).
  { subst s1 c. simpl. by rewrite lookup_app_r, Nat.sub_diag by done. }
  assert (Hd : closures (fst (revertPop c s1)) !! c
               = Some {| captured_n := n; reverted := true |}).
  { rewrite (revertPop_fresh c n s1 Hc). simpl.
    apply list_lookup_insert_eq. by eapply lookup_lt_Some. }
  split; [reflexivity|]. split; [|split; [|split]].
  - by rewrite (revertPop_fresh c n s1 Hc).
  - intros k. by apply revertPops_fresh.
  - intros k.
    by apply (revertPops_spent k c {| captured_n := n; reverted := true |}).
  - intros inputs.
    apply (revertPop_spent c {| captured_n := n; reverted := true |}); [|done].
    by apply feed_keeps_reverted.
Qed.

Lemma revertPop_idempotent_witness :
  exists n kind c s1,
    handlePop (Sample.reporting "/4") Sample.at_5 = (s1, [jump n kind c])
    /\ pendingPop s1 = Some n
    /\ snd (revertPop c s1) = [history_go (- n)]
    /\ (forall k, snd (revertPops (S k) c s1) = [history_go (- n)])
    /\ (forall k, revertPops k c (fst (revertPop c s1)) = (fst (revertPop c s1), []))
    /\ (forall inputs,
          let s2 := fst (feed inputs (fst (revertPop c s1))) in
          revertPop c s2 = (s2, [])).
Proof.
  apply (revertPop_idempotent (Sample.reporting "/4") Sample.at_5); reflexivity.
Defined.

End PopHandling.

(* ================================================================== *)
(** * Properties of the rapid-change workaround *)
(* ================================================================== *)

Section Serialised.

Import RapidChange.

Lemma rapidChangeWorkaround__unfold test location w tries0 timers0 queue0 :
  rapidChangeWorkaround_ test location w tries0 timers0 queue0 =
    if negb (ready location w) && (S tries0 <? maxTries) then
      {| st := {| tries := S tries0; queue := queue0; timers := timers0 ++ [w] |};
         effects := [console_log (S tries0 + 1) (name w); setTimeout w 9];
         thrown := false |}
    else if test && negb (ready location w) then
      {| st := {| tries := S tries0; queue := queue0; timers := timers0 |};
         effects := [];
         thrown := true |}
    else
      match queue0 with
      | [] =>
          {| st := {| tries := 0; queue := []; timers := timers0 |};
             effects := [complete w];
             thrown := false |}
      | again :: rest =>
          let o := rapidChangeWorkaround_ test location again 0 timers0 rest in
          {| st := st o; effects := complete w :: effects o; thrown := thrown o |}
      end.
Proof. by destruct queue0. Qed.

Lemma rapidChangeWorkaround__settled test location queue0 : forall w tries0,
  tries0 < maxTries ->
  let o := rapidChangeWorkaround_ test location w tries0 [] queue0 in
  settled test (w :: queue0) o /\ Forall (fun ms => ms = 9) (backoffs (effects o)).
Proof.
  induction queue0 as [|again rest IH]; intros w tries0 Hlt o; subst o;
    rewrite rapidChangeWorkaround__unfold;
    (destruct (negb (ready location w) && (S tries0 <? maxTries)) eqn:H1;
     [| destruct (test && negb (ready location w)) eqn:H2]).
  1,4: apply andb_true_iff in H1 as [_ H1]; apply Nat.ltb_lt in H1;
    (split; [left|by repeat constructor]);
    (split; [done|split; [right; exists w; simpl; split; [done|lia] | done]]).
  1,3: apply andb_true_iff in H2 as [-> Hr]; rewrite Hr in H1; simpl in H1;
    apply Nat.ltb_ge in H1;
    (split; [right|by constructor]);
    (split; [done|split; [done|split; [split; [simpl; lia|done] | by exists w]]]).
  - split; [left|by constructor].
    split; [done|split; [by left | done]].
  - assert (H0 : 0 < maxTries) by (unfold maxTries; lia).
    destruct (IH again 0 H0) as [[(Ht & Hi & Hc)|(Ht & Htest & Hs & w' & Hc)] Hb];
      (split; [|exact Hb]).
    + left. simpl. split; [done|split; [done|by rewrite <- Hc]].
    + right. simpl. split; [done|split; [done|split; [done|]]].
      exists w'. by rewrite <- Hc.
Qed.

Lemma idle_initial : idle initial.
Proof. done. Qed.

Lemma step_settled test location e s :
  idle s \/ polling s ->
  let o := step test location e s in
  settled test (waiting s ++ arrival e) o
  /\ Forall (fun ms => ms = 9) (backoffs (effects o)).
Proof.
  intros Hs o. subst o. destruct e as [w|]; simpl.
  - unfold tryChange. destruct Hs as [(Ht & Htm & Hq)|(w0 & Htm & Ht)].
    + rewrite Ht. simpl. unfold rapidChangeWorkaround, waiting.
      rewrite Ht, Htm, Hq. simpl.
      apply (rapidChangeWorkaround__settled test location [] w 0).
      unfold maxTries. lia.
    + destruct (tries s =? 0) eqn:H0; [apply Nat.eqb_eq in H0; lia|].
      split; [left|by constructor]. simpl.
      split; [done|split; [right; by exists w0|]].
      unfold waiting. simpl. by rewrite app_assoc.
  - destruct Hs as [(Ht & Htm & Hq)|(w0 & Htm & Ht)]; rewrite Htm.
    + split; [left|by constructor]. simpl.
      split; [done|split; [by left|]]. by rewrite app_nil_r.
    + unfold rapidChangeWorkaround, waiting. rewrite Htm. simpl.
      rewrite app_nil_r.
      apply (rapidChangeWorkaround__settled test location (queue s) w0 (tries s)).
      lia.
Qed.

Lemma step_stuck test location e s :
  stuck s ->
  thrown (step test location e s) = false
  /\ effects (step test location e s) = []
  /\ stuck (st (step test location e s)).
Proof.
  intros [Ht Htm]. destruct e as [w|]; simpl.
  - unfold tryChange. rewrite Ht. simpl. by repeat split.
  - rewrite Htm. simpl. by repeat split.
Qed.

Lemma run_stuck test evs : forall s,
  stuck s ->
  thrown (run test evs s) = false
  /\ effects (run test evs s) = []
  /\ stuck (st (run test evs s)).
Proof.
  induction evs as [|[location e] rest IH]; intros s Hs; simpl; [done|].
  destruct (step_stuck test location e s Hs) as (H1 & H2 & H3).
  destruct (IH _ H3) as (H4 & H5 & H6).
  by rewrite H1, H2, H4, H5.
Qed.

Lemma arrivals_cons location e rest :
  arrivals ((location, e) :: rest) = arrival e ++ arrivals rest.
Proof. by destruct e. Qed.

Lemma completions_app es1 es2 :
  completions (es1 ++ es2) = completions es1 ++ completions es2.
Proof. apply omap_app. Qed.

Lemma backoffs_app es1 es2 :
  backoffs (es1 ++ es2) = backoffs es1 ++ backoffs es2.
Proof. apply omap_app. Qed.

Lemma run_settled test evs : forall s,
  idle s \/ polling s ->
  let o := run test evs s in
  Forall (fun ms => ms = 9) (backoffs (effects o))
  /\ ((thrown o = false
       /\ (idle (st o) \/ polling (st o))
       /\ completions (effects o) ++ waiting (st o) = waiting s ++ arrivals evs)
      \/ (thrown o = true
          /\ test = true
          /\ stuck (st o)
          /\ completions (effects o) `prefix_of` waiting s ++ arrivals evs)).
Proof.
  induction evs as [|[location e] rest IH]; intros s Hs o; subst o.
  - simpl. split; [constructor|]. left. by rewrite app_nil_r.
  - rewrite arrivals_cons. simpl. rewrite backoffs_app, completions_app.
    destruct (step_settled test location e s Hs)
      as [[(Ht & Hi & Hc)|(Ht & Htest & Hst & w & Hc)] Hb].
    + destruct (IH _ Hi) as [Hb' [(Ht' & Hi' & Hc')|(Ht' & Htest' & Hst' & Hc')]];
        (split; [by apply Forall_app|]); rewrite Ht, Ht'; simpl.
      * left. split; [done|split; [done|]].
        by rewrite <- app_assoc, Hc', app_assoc, Hc, <- app_assoc.
      * right. split; [done|split; [done|split; [done|]]].
        rewrite app_assoc, <- Hc, <- app_assoc. by apply prefix_app.
    + destruct (run_stuck test rest _ Hst) as (Ht' & He' & Hst').
      rewrite He', Ht, Ht', !app_nil_r. simpl.
      split; [done|]. right. split; [done|split; [done|split; [done|]]].
      rewrite app_assoc, <- Hc, <- app_assoc. by apply prefix_app_r.
Qed.

Lemma run_cons test location e rest s :
  run test ((location, e) :: rest) s =
    {| st := st (run test rest (st (step test location e s)));
       effects := effects (step test location e s)
                  ++ effects (run test rest (st (step test location e s)));
       thrown := thrown (step test location e s)
                 || thrown (run test rest (st (step test location e s))) |}.
Proof. reflexivity. Qed.

Lemma step_first_poll test location w :
  ready location w = false ->
  step test location (tryChange_called w) initial =
    {| st := {| tries := 1; queue := []; timers := [w] |};
       effects := [console_log 2 (name w); setTimeout w 9];
       thrown := false |}.
Proof.
  intros H. simpl. unfold tryChange, rapidChangeWorkaround. simpl.
  by rewrite H.
Qed.

Lemma step_retry test location w tries0 :
  ready location w = false ->
  S tries0 < maxTries ->
  step test location timer_fired {| tries := tries0; queue := []; timers := [w] |} =
    {| st := {| tries := S tries0; queue := []; timers := [w] |};
       effects := [console_log (S tries0 + 1) (name w); setTimeout w 9];
       thrown := false |}.
Proof.
  intros H Hlt. apply Nat.ltb_lt in Hlt.
  simpl. unfold rapidChangeWorkaround. simpl. by rewrite H, Hlt.
Qed.

Lemma step_last_poll test location w tries0 :
  ready location w = false ->
  S tries0 = maxTries ->
  step test location timer_fired {| tries := tries0; queue := []; timers := [w] |} =
    if test then
      {| st := {| tries := maxTries; queue := []; timers := [] |};
         effects := []; thrown := true |}
    else
      {| st := initial; effects := [complete w]; thrown := false |}.
Proof.
  intros H Heq.
  simpl. unfold rapidChangeWorkaround. simpl. rewrite H, Heq. simpl.
  by destruct test.
Qed.

Lemma run_app test evs1 : forall evs2 s,
  run test (evs1 ++ evs2) s =
    {| st := st (run test evs2 (st (run test evs1 s)));
       effects := effects (run test evs1 s)
                  ++ effects (run test evs2 (st (run test evs1 s)));
       thrown := thrown (run test evs1 s)
                 || thrown (run test evs2 (st (run test evs1 s))) |}.
Proof.
  induction evs1 as [|[location e] rest IH]; intros evs2 s.
  - simpl. by destruct (run test evs2 s).
  - rewrite <- app_comm_cons, !run_cons, IH. cbn [st effects thrown].
    by rewrite app_assoc, orb_assoc.
Qed.

Lemma run_retries test w locations : forall tries0,
  Forall (fun l => ready l w = false) locations ->
  tries0 + length locations < maxTries ->
  let o := run test (timers_fired locations)
             {| tries := tries0; queue := []; timers := [w] |} in
  st o = {| tries := tries0 + length locations; queue := []; timers := [w] |}
  /\ thrown o = false
  /\ completions (effects o) = []
  /\ length (backoffs (effects o)) = length locations.
Proof.
  induction locations as [|l rest IH]; intros tries0 Hall Hlt o; subst o.
  - simpl. by rewrite Nat.add_0_r.
  - apply Forall_cons in Hall as [Hl Hall]. simpl in Hlt.
    unfold timers_fired. rewrite map_cons, run_cons.
    rewrite step_retry by (done || lia). cbn [st effects thrown].
    destruct (IH (S tries0) Hall ltac:(lia)) as (H1 & H2 & H3 & H4).
    unfold timers_fired in *. rewrite H1, H2, completions_app, backoffs_app, H3.
    rewrite length_app, H4. simpl. repeat split; try done. f_equal. lia.
Qed.

Lemma never_ready_bound test w first later :
  length later = 9 ->
  Forall (fun l => ready l w = false) (first :: later) ->
  let o := run test (never_ready_run w first later) initial in
  length (backoffs (effects o)) = 9
  /\ thrown o = test
  /\ completions (effects o) = (if test then [] else [w])
  /\ tries (st o) = (if test then maxTries else 0).
Proof.
  intros Hlen Hall o. subst o.
  apply Forall_cons in Hall as [Hfirst Hall].
  destruct later as [|last mid _] using rev_ind; [done|].
  rewrite length_app in Hlen. simpl in Hlen.
  apply Forall_app in Hall as [Hmid Hlast].
  apply Forall_cons in Hlast as [Hlast _].
  unfold never_ready_run, timers_fired.
  rewrite run_cons, step_first_poll by done. cbn [st effects thrown].
  rewrite map_app, run_app. cbn [st effects thrown].
  destruct (run_retries test w mid 1 Hmid ltac:(unfold maxTries; lia))
    as (H1 & H2 & H3 & H4).
  unfold timers_fired in *. rewrite H1, H2.
  rewrite map_cons, run_cons.
  rewrite (step_last_poll test last w (1 + length mid) Hlast)
    by (unfold maxTries; lia).
  rewrite !backoffs_app, !completions_app, !length_app, H3, H4.
  destruct test; simpl; repeat split; lia.
Qed.

(** ** The claim *)



End Serialised.

(* ================================================================== *)
(** * The order of own properties *)
(* ================================================================== *)

Section OwnPropertyOrder.

Import JS.

Context {A : Type}.

Implicit Types l : list (string * A).

Lemma insert_index_Permutation k a l : insert_index k a l ≡ₚ (k, a) :: l.
Proof.
  induction l as [|[k' a'] rest IH]; simpl; [done|].
  destruct (parseFloat k <=? parseFloat k')%Z; [done|].
  rewrite IH. apply Permutation_swap.
Qed.

Lemma sort_indices_Permutation l : sort_indices l ≡ₚ l.
Proof.
  induction l as [|[k a] rest IH]; simpl; [done|].
  by rewrite insert_index_Permutation, IH.
Qed.

Lemma filter_index_Permutation l :
  filter (fun ka => is_array_index ka.1 = true) l
  ++ filter (fun ka => is_array_index ka.1 = false) l ≡ₚ l.
Proof.
  induction l as [|[k a] rest IH]; [done|].
  destruct (is_array_index k) eqn:Hk.
  - rewrite filter_cons_True by done. rewrite filter_cons_False by (simpl; congruence).
    simpl. by rewrite IH.
  - rewrite filter_cons_False by (simpl; congruence). rewrite filter_cons_True by done.
    rewrite <- Permutation_middle. by rewrite IH.
Qed.

Lemma own_property_order_Permutation l : own_property_order l ≡ₚ l.
Proof.
  unfold own_property_order.
  by rewrite sort_indices_Permutation, filter_index_Permutation.
Qed.

Lemma insert_index_Sorted k a l :
  Sorted ascending l -> Sorted ascending (insert_index k a l).
Proof.
  induction l as [|[k' a'] rest IH]; intros Hs; simpl.
  - by repeat constructor.
  - destruct (parseFloat k <=? parseFloat k')%Z eqn:Hle.
    + apply Z.leb_le in Hle. constructor; [done|]. by constructor.
    + apply Z.leb_gt in Hle. apply Sorted_inv in Hs as [Hs Hhd].
      constructor; [by apply IH|].
      destruct rest as [|[k'' a''] rest']; simpl.
      * constructor. unfold ascending. simpl. lia.
      * destruct (parseFloat k <=? parseFloat k'')%Z.
        -- constructor. unfold ascending. simpl. lia.
        -- constructor. by apply HdRel_inv in Hhd.
Qed.

Lemma sort_indices_Sorted l : Sorted ascending (sort_indices l).
Proof.
  induction l as [|[k a] rest IH]; simpl; [constructor|].
  by apply insert_index_Sorted.
Qed.

(** A table none of whose keys is an array index is listed as it was
    declared. *)
Lemma own_property_order_plain l :
  Forall (fun ka => is_array_index ka.1 = false) l -> own_property_order l = l.
Proof.
  intros Hall. unfold own_property_order.
  induction l as [|[k a] rest IH]; [done|].
  apply Forall_cons in Hall as [Hk Hall]. specialize (IH Hall).
  rewrite filter_cons_False by (simpl in *; congruence).
  rewrite filter_cons_True by exact Hk.
  apply (f_equal (cons (k, a))) in IH.
  destruct (sort_indices (filter (fun ka => is_array_index ka.1 = true) rest)) eqn:Hs.
  - simpl in *. exact IH.
  - exfalso. assert (Hin : p ∈ rest).
    { assert (Hin : p ∈ filter (fun ka => is_array_index ka.1 = true) rest).
      { rewrite <- sort_indices_Permutation, Hs. by left. }
      by apply list_elem_of_filter in Hin as [_ ?]. }
    assert (Hp : p ∈ filter (fun ka => is_array_index ka.1 = true) rest).
    { rewrite <- sort_indices_Permutation, Hs. by left. }
    apply list_elem_of_filter in Hp as [Hp _].
    rewrite Forall_forall in Hall. specialize (Hall p Hin). simpl in *. congruence.
Qed.

Lemma own_property_order_NoDup l :
  NoDup (map fst l) -> NoDup (map fst (own_property_order l)).
Proof. intros H. by rewrite own_property_order_Permutation. Qed.

End OwnPropertyOrder.

(* ================================================================== *)
(** * Properties of the translator *)
(* ================================================================== *)

Section TranslatorFacts.

Import JS Translator.

Variable call : fn -> list Arg -> value.
Variable matchPath : Location -> Route.t -> Options.t -> option RawMatch.
Variable urlToLocation : string -> Location.
Variable NOT_FOUND : string.

(** ** Strings *)

Lemma strip_prefix_app p : forall rest,
  strip_prefix p (p ++ rest)%string = Some rest.
Proof.
  induction p as [|a p IH]; intros rest; simpl; [by destruct rest|].
  by rewrite Ascii.eqb_refl.
Qed.

Lemma replace_first_unfold p s :
  replace_first p s =
    match strip_prefix p s with
    | Some rest => rest
    | None =>
        match s with
        | EmptyString => EmptyString
        | String c s' => String c (replace_first p s')
        end
    end.
Proof. by destruct s. Qed.

(** Removing the first occurrence of a prefix removes the prefix. *)
Lemma replace_first_prefix p rest :
  replace_first p (p ++ rest)%string = rest.
Proof. by rewrite replace_first_unfold, strip_prefix_app. Qed.

Lemma strip_prefix_Some p : forall s rest,
  strip_prefix p s = Some rest -> s = (p ++ rest)%string.
Proof.
  induction p as [|a p IH]; intros s rest; simpl; [by intros [= ->]|].
  destruct s as [|b s]; [done|].
  destruct (Ascii.eqb a b) eqn:Hab; [|done].
  apply Ascii.eqb_eq in Hab as ->. intros H. by rewrite (IH s rest H).
Qed.

Lemma occurs_unfold p s :
  occurs p s =
    match strip_prefix p s with
    | Some _ => true
    | None =>
        match s with
        | EmptyString => false
        | String _ s' => occurs p s'
        end
    end.
Proof. by destruct s. Qed.

(** Where the pattern does not occur, nothing is removed. *)
Lemma replace_first_absent p s : occurs p s = false -> replace_first p s = s.
Proof.
  induction s as [|c s IH]; rewrite occurs_unfold, replace_first_unfold;
    destruct (strip_prefix p _); try done.
  intros H. by rewrite (IH H).
Qed.

(** Where it occurs, what is removed is its first occurrence. *)
Lemma replace_first_occurs p s :
  occurs p s = true ->
  exists before after,
    s = (before ++ p ++ after)%string
    /\ (forall before' after',
          s = (before' ++ p ++ after')%string ->
          String.length before <= String.length before')
    /\ replace_first p s = (before ++ after)%string.
Proof.
  induction s as [|c s IH]; rewrite occurs_unfold, replace_first_unfold;
    destruct (strip_prefix p _) as [rest|] eqn:Hp; try done.
  - intros _. exists ""%string, rest. apply strip_prefix_Some in Hp.
    split; [done|]. split; [simpl; lia|done].
  - intros _. exists ""%string, rest. apply strip_prefix_Some in Hp.
    split; [done|]. split; [simpl; lia|done].
  - intros H. destruct (IH H) as (before & after & Hs & Hmin & Hr).
    exists (String c before), after. split; [exact (f_equal (String c) Hs)|].
    split; [|exact (f_equal (String c) Hr)].
    intros before' after' Heq. destruct before' as [|c' before'].
    + change (String c s = (p ++ after')%string) in Heq.
      rewrite Heq, strip_prefix_app in Hp. done.
    + change (String c s = String c' (before' ++ p ++ after')%string) in Heq.
      injection Heq as -> Heq. simpl.
      specialize (Hmin before' after' Heq). lia.
Qed.

Lemma scoped_not_empty scene :
  String.eqb (scene ++ "/NOT_FOUND")%string "" = false.
Proof. by destruct scene. Qed.

(** ** The route table *)

Lemma get_elem_of routes : forall type route,
  get routes type = Some route -> (type, route) ∈ routes.
Proof.
  induction routes as [|[k r] rest IH]; intros type route; simpl; [done|].
  destruct (String.eqb k type) eqn:Hk.
  - apply String.eqb_eq in Hk as ->. intros [= ->]. by left.
  - intros H. right. by apply IH.
Qed.

Lemma get_NoDup routes : forall type route,
  NoDup (keys routes) -> (type, route) ∈ routes -> get routes type = Some route.
Proof.
  induction routes as [|[k r] rest IH]; intros type route Hnd Hin; simpl.
  - by apply elem_of_nil in Hin.
  - apply NoDup_cons in Hnd as [Hk Hnd].
    apply elem_of_cons in Hin as [[= -> ->]|Hin].
    + by rewrite String.eqb_refl.
    + destruct (String.eqb k type) eqn:Heq; [|by apply IH].
      apply String.eqb_eq in Heq as ->. exfalso. apply Hk.
      apply list_elem_of_fmap. by exists (type, route).
Qed.

(** The loop over the filtered keys is the first match over the table. *)
Lemma urlToAction_loop_first_match routes l opts basename state : forall table,
  (forall type route, (type, route) ∈ table -> get routes type = Some route) ->
  urlToAction_loop call matchPath
    (filter (fun type => from_option has_path false (get routes type) = true) (keys table))
    l routes opts basename state
  = first_match call matchPath table l opts basename state.
Proof.
  induction table as [|[type route] rest IH]; intros Hget; [done|].
  assert (Hrest : forall t r, (t, r) ∈ rest -> get routes t = Some r).
  { intros t r Hin. apply Hget. by right. }
  specialize (IH Hrest).
  assert (Hhere : get routes type = Some route) by (apply Hget; by left).
  unfold keys in *. rewrite fmap_cons. simpl fst.
  destruct (has_path route) eqn:Hp.
  - rewrite filter_cons_True by (by rewrite Hhere).
    simpl. rewrite Hhere, Hp.
    destruct (matchUrl matchPath l route _ route opts) as [[m|]|e]; simpl; done.
  - rewrite filter_cons_False by (rewrite Hhere; simpl; congruence).
    simpl. by rewrite Hp.
Qed.

#[local] Abbreviation matches l route opts :=
  (matchUrl matchPath l route (transformers call) route opts).

Lemma first_match_skip l opts basename state tail : forall pre,
  (forall t r, (t, r) ∈ pre -> has_path r = true -> matches l r opts = Ok None) ->
  first_match call matchPath (pre ++ tail) l opts basename state
  = first_match call matchPath tail l opts basename state.
Proof.
  induction pre as [|[t r] pre IH]; intros Hpre; [done|].
  assert (IH' := IH (fun t' r' Hin => Hpre t' r' (list_elem_of_further _ _ _ Hin))).
  simpl. destruct (has_path r) eqn:Hp; [|done].
  by rewrite (Hpre t r (list_elem_of_here _ _) Hp).
Qed.

Lemma first_match_found l opts basename state table : forall a,
  first_match call matchPath table l opts basename state = Ok (Some a) ->
  exists type route m,
    (type, route) ∈ table /\ has_path route = true
    /\ matches l route opts = Ok (Some m)
    /\ a = matched_action call type route m opts basename state.
Proof.
  induction table as [|[t r] rest IH]; intros a; simpl; [done|].
  destruct (has_path r) eqn:Hp.
  - destruct (matches l r opts) as [[m|]|e] eqn:Hm; simpl; [| |done].
    + intros [= <-]. exists t, r, m. repeat split; [by left|done|done].
    + intros H. destruct (IH a H) as (t' & r' & m' & Hin & ?).
      exists t', r', m'. split; [by right|done].
  - intros H. destruct (IH a H) as (t' & r' & m' & Hin & ?).
    exists t', r', m'. split; [by right|done].
Qed.

Lemma first_match_none l opts basename state table :
  first_match call matchPath table l opts basename state = Ok None <->
  (forall t r, (t, r) ∈ table -> has_path r = true -> matches l r opts = Ok None).
Proof.
  induction table as [|[t r] rest [IH1 IH2]]; simpl.
  - split; [|done]. intros _ t r Hin. by apply elem_of_nil in Hin.
  - assert (Hcons : forall P : string -> Route.t -> Prop,
              P t r -> (forall t' r', (t', r') ∈ rest -> P t' r') ->
              forall t' r', (t', r') ∈ (t, r) :: rest -> P t' r').
    { intros P Hhere Hrest t' r' Hin.
      apply elem_of_cons in Hin as [[= -> ->]|Hin]; [done|by apply Hrest]. }
    destruct (has_path r) eqn:Hp.
    + destruct (matches l r opts) as [[m|]|e] eqn:Hm; simpl.
      * split; [done|]. intros H. specialize (H t r (list_elem_of_here _ _) Hp).
        congruence.
      * split.
        -- intros H. apply (Hcons (fun t' r' => has_path r' = true -> _)); [done|].
           by apply IH1.
        -- intros H. apply IH2. intros t' r' Hin. apply (H t' r'). by right.
      * split; [done|]. intros H. specialize (H t r (list_elem_of_here _ _) Hp).
        congruence.
    + split.
      * intros H. apply (Hcons (fun t' r' => has_path r' = true -> _)); [congruence|].
        by apply IH1.
      * intros H. apply IH2. intros t' r' Hin. apply (H t' r'). by right.
Qed.

(** The loop of [urlToAction] over a whole table. *)
Lemma urlToAction_loop_table routes l opts basename state :
  NoDup (keys routes) ->
  urlToAction_loop call matchPath (path_types routes) l routes opts basename state
  = first_match call matchPath routes l opts basename state.
Proof.
  intros Hnd. apply urlToAction_loop_first_match.
  intros type route. by apply get_NoDup.
Qed.

(** ** The claims about [urlToAction] *)

(** C2 (as the code has it).  The routes are matched against the url from
    which the first occurrence of the basename has been removed: its prefix
    when the url starts with the basename, a part further on when the
    basename first occurs there, nothing when it does not occur.  The loop
    goes over the routes in the order [Object.keys] lists the table: the
    types that are array indices first, in ascending numeric order, then the
    other types in the order in which the table declares them; a table none
    of whose types is an array index is gone through as declared.  In that
    order the loop is the first match: when an entry carries a path and
    matches, and no entry before it that carries a path matches, the result
    is the action built from that entry, whatever the entries after it are;
    and an action that is returned for a match was built from an entry that
    carries a path, so a route without a path never gives one. *)
Theorem urlToAction_first_match (loc : Loc) (declared : RoutesMap) (opts : Options.t)
    (scene : string) :
  NoDup (keys declared) ->
  let routes := own_property_order declared in
  let l := stripped_location urlToLocation loc in
  let basename := loc_basename loc in
  let state := loc_state loc in
  ((forall rest,
      url_of_loc loc = (basename ++ rest)%string -> l = urlToLocation rest)
   /\ (occurs basename (url_of_loc loc) = false -> l = urlToLocation (url_of_loc loc))
   /\ (occurs basename (url_of_loc loc) = true ->
       exists before after,
         url_of_loc loc = (before ++ basename ++ after)%string
         /\ (forall before' after',
               url_of_loc loc = (before' ++ basename ++ after')%string ->
               String.length before <= String.length before')
         /\ l = urlToLocation (before ++ after)%string))
  /\ (routes ≡ₚ declared
      /\ (exists indices,
            routes = indices ++ filter (fun tr => is_array_index tr.1 = false) declared
            /\ indices ≡ₚ filter (fun tr => is_array_index tr.1 = true) declared
            /\ Sorted ascending indices)
      /\ (Forall (fun tr => is_array_index tr.1 = false) declared -> routes = declared))
  /\ urlToAction_loop call matchPath (path_types routes) l routes opts basename state
     = first_match call matchPath routes l opts basename state
  /\ (forall pre type route post m,
        routes = pre ++ (type, route) :: post ->
        (forall t r, (t, r) ∈ pre -> has_path r = true ->
           matchUrl matchPath l r (transformers call) r opts = Ok None) ->
        has_path route = true ->
        matchUrl matchPath l route (transformers call) route opts = Ok (Some m) ->
        urlToAction call matchPath urlToLocation NOT_FOUND loc routes opts scene
        = Ok (matched_action call type route m opts basename state))
  /\ (forall a,
        urlToAction call matchPath urlToLocation NOT_FOUND loc routes opts scene = Ok a ->
        (exists type route m,
           (type, route) ∈ routes /\ has_path route = true
           /\ matchUrl matchPath l route (transformers call) route opts = Ok (Some m)
           /\ a = matched_action call type route m opts basename state)
        \/ (forall t r, (t, r) ∈ routes -> has_path r = true ->
              matchUrl matchPath l r (transformers call) r opts = Ok None)).
Proof.
  intros Hdecl routes l basename state.
  assert (Hnd : NoDup (keys routes)) by by apply own_property_order_NoDup.
  pose proof (urlToAction_loop_table routes l opts basename state Hnd) as Hloop.
  split; [|split; [|split; [done|split]]].
  - subst l. unfold stripped_location. fold basename. split; [|split].
    + intros rest Hurl. by rewrite Hurl, replace_first_prefix.
    + intros Habsent. by rewrite replace_first_absent.
    + intros Hocc.
      destruct (replace_first_occurs basename (url_of_loc loc) Hocc)
        as (before & after & Hurl & Hmin & Hr).
      exists before, after. by rewrite Hr.
  - split; [apply own_property_order_Permutation|]. split.
    + eexists. split; [reflexivity|].
      split; [apply sort_indices_Permutation | apply sort_indices_Sorted].
    + apply own_property_order_plain.
  - intros pre type route post m Hroutes Hpre Hp Hm.
    unfold urlToAction. fold basename state l. rewrite Hloop, Hroutes.
    rewrite first_match_skip by done. simpl. by rewrite Hp, Hm.
  - intros a. unfold urlToAction. fold basename state l. rewrite Hloop.
    destruct (first_match call matchPath routes l opts basename state)
      as [[found|]|e] eqn:Hfm; simpl; [| |done].
    + intros [= <-]. left. by apply (first_match_found l opts basename state routes).
    + intros _. right.
      exact (proj1 (first_match_none l opts basename state routes) Hfm).
Qed.

(** C7 (as the code has it).  When no entry of the table that carries a
    path matches, the result is the NOT_FOUND action: its type is the scoped
    one when the table has it and [NOT_FOUND] otherwise, its params are the
    empty object, its query is the empty object when there is no search
    string and otherwise what the [parseQuery] function of the [NOT_FOUND]
    route or of the options returns for the search string, its hash is the
    hash of the location and its state the state that came in; it is an
    [Action.t] like the action of a match.  With a search string the function
    is looked up on [routes.NOT_FOUND], the route under the plain key: when
    the table has no such route, or neither it nor the options carry
    [parseQuery], the translator throws a [TypeError] instead of returning
    the action. *)
Theorem urlToAction_not_found (loc : Loc) (routes : RoutesMap) (opts : Options.t)
    (scene : string) :
  let l := stripped_location urlToLocation loc in
  (forall t r, (t, r) ∈ routes -> has_path r = true ->
     matchUrl matchPath l r (transformers call) r opts = Ok None) ->
  let not_found (query : value) :=
    {| Action.type :=
         match get routes (scene ++ "/NOT_FOUND")%string with
         | Some _ => (scene ++ "/NOT_FOUND")%string
         | None => NOT_FOUND
         end;
       Action.params := VObj ∅;
       Action.query := query;
       Action.hash := VStr (hash l);
       Action.basename := loc_basename loc;
       Action.state := VObj (loc_state loc) |} in
  (search l = "" ->
     urlToAction call matchPath urlToLocation NOT_FOUND loc routes opts scene
     = Ok (not_found (VObj ∅)))
  /\ (forall f,
        search l <> "" ->
        parseQuery_hook routes opts = Some f ->
        urlToAction call matchPath urlToLocation NOT_FOUND loc routes opts scene
        = Ok (not_found (call f [arg (VStr (search l))])))
  /\ (search l <> "" ->
      get routes "NOT_FOUND" = None
      \/ (exists r, get routes "NOT_FOUND" = Some r
                   /\ Route.parseQuery r = None /\ Options.parseQuery opts = None) ->
      parseQuery_hook routes opts = None
      /\ urlToAction call matchPath urlToLocation NOT_FOUND loc routes opts scene
         = Throw TypeError).
Proof.
  intros l Hnone not_found.
  assert (Hloop : urlToAction_loop call matchPath (path_types routes) l routes opts
                    (loc_basename loc) (loc_state loc) = Ok None).
  { unfold path_types.
    assert (Hgen : forall table,
      urlToAction_loop call matchPath
        (filter (fun type => from_option has_path false (get routes type) = true)
           (keys table))
        l routes opts (loc_basename loc) (loc_state loc) = Ok None).
    { induction table as [|[t r] rest IH]; [done|].
      unfold keys in *. rewrite fmap_cons. simpl fst.
      destruct (get routes t) as [r0|] eqn:Hget.
      - destruct (has_path r0) eqn:Hp.
        + rewrite filter_cons_True by (by rewrite Hget).
          simpl. rewrite Hget.
          by rewrite (Hnone t r0 (get_elem_of routes t r0 Hget) Hp).
        + rewrite filter_cons_False by (rewrite Hget; simpl; congruence). done.
      - rewrite filter_cons_False by (rewrite Hget; simpl; congruence). done. }
    by apply Hgen. }
  assert (Htype : fst (notFound NOT_FOUND (VObj (loc_state loc))
                         (scoped_not_found routes scene))
                  = Action.type (not_found (VObj ∅))).
  { unfold scoped_not_found, notFound. simpl.
    destruct (get routes (scene ++ "/NOT_FOUND")%string); [|done].
    by rewrite scoped_not_empty. }
  split; [|split].
  - intros Hs. unfold urlToAction. fold l. rewrite Hloop. simpl.
    rewrite Hs. simpl. unfold notFound in *. simpl in *. by rewrite Htype.
  - intros f Hs Hhook. unfold urlToAction. fold l. rewrite Hloop. simpl.
    apply String.eqb_neq in Hs. rewrite Hs.
    unfold parseQuery_hook in Hhook. unfold parseQuery.
    destruct (get routes "NOT_FOUND") as [nf|]; [|done]. rewrite Hhook. simpl.
    unfold notFound in *. simpl in *. by rewrite Htype.
  - intros Hs Hq. unfold urlToAction. fold l. rewrite Hloop. simpl.
    apply String.eqb_neq in Hs. rewrite Hs. unfold notFound, parseQuery, parseQuery_hook.
    destruct Hq as [->|(r & -> & -> & ->)]; done.
Qed.

(** C8.  The translator throws when the first route that matches has
    capitalization on, no [fromPath] of its own, and an optional parameter,
    the first of its parameters, that the url does not fill: [fromPath]
    hands the [undefined] value to [defaultFromPath], which calls [replace]
    on it. *)
Theorem urlToAction_throws (loc : Loc) (routes : RoutesMap) (opts : Options.t)
    (scene : string) (pre post : RoutesMap) (type : string) (route : Route.t)
    (raw : RawMatch) (key : string) (props : list (string * option string)) :
  NoDup (keys routes) ->
  routes = pre ++ (type, route) :: post ->
  let l := stripped_location urlToLocation loc in
  (forall t r, (t, r) ∈ pre -> has_path r = true ->
     matchUrl matchPath l r (transformers call) r opts = Ok None) ->
  has_path route = true ->
  Route.fromPath route = None ->
  capitalize_on route opts = true ->
  matchPath l route opts = Some raw ->
  raw_params raw = (key, None) :: props ->
  defaultFromPath call None key None route opts = Throw TypeError
  /\ urlToAction call matchPath urlToLocation NOT_FOUND loc routes opts scene
     = Throw TypeError.
Proof.
  intros Hnd -> l Hpre Hp Hf Hc Hraw Hprops.
  assert (Hd : defaultFromPath call None key None route opts = Throw TypeError).
  { unfold defaultFromPath. by rewrite Hc, andb_false_r. }
  split; [done|].
  unfold urlToAction. fold l.
  rewrite (urlToAction_loop_table _ l opts _ _ Hnd).
  rewrite first_match_skip by done. simpl. rewrite Hp.
  unfold matchUrl. rewrite Hraw. simpl. unfold fromPath. rewrite Hprops. simpl.
  unfold fromPath_key. simpl. by rewrite Hf, Hd.
Qed.

End TranslatorFacts.

Section PathParameters.

Import JS Translator.

Variable call : fn -> list Arg -> value.

(** ** The loop of [fromPath] *)

Lemma fromPath_loop_spec route opts props : forall acc params,
  NoDup (map fst props) ->
  fromPath_loop call props acc route opts = Ok params ->
  (forall k, k ∉ map fst props -> params !! k = acc !! k)
  /\ (forall k val, (k, val) ∈ props ->
        exists v, fromPath_key call k val route opts = Ok v
                  /\ params !! k = if is_undefined v then None else Some v).
Proof.
  induction props as [|[key val] rest IH]; intros acc params Hnd Hloop.
  - simpl in Hloop. injection Hloop as <-. split; [done|].
    intros k v Hin. by apply elem_of_nil in Hin.
  - simpl in Hnd. apply NoDup_cons in Hnd as [Hkey Hnd].
    simpl in Hloop.
    destruct (fromPath_key call key val route opts) as [v|e] eqn:Hv; [|done].
    simpl in Hloop. destruct (IH _ _ Hnd Hloop) as [Hout Hin].
    assert (Hhere : params !! key = if is_undefined v then None else Some v).
    { rewrite (Hout key Hkey).
      destruct (is_undefined v); [apply lookup_delete_eq | apply lookup_insert_eq]. }
    split.
    + intros k Hk. simpl in Hk. apply not_elem_of_cons in Hk as [Hne Hk].
      rewrite (Hout k Hk).
      destruct (is_undefined v); [by apply lookup_delete_ne | by apply lookup_insert_ne].
    + intros k val' Hel. apply elem_of_cons in Hel as [[= -> ->]|Hel].
      * by exists v.
      * by apply Hin.
Qed.

Lemma params_object_lookup_None props k :
  k ∉ map fst props -> params_object props !! k = None.
Proof.
  intros Hk. unfold params_object. apply not_elem_of_list_to_map_1.
  by rewrite <- list_fmap_compose.
Qed.

(** After the loop no parameter is [undefined]. *)
Lemma fromPath_loop_defined route opts props params k v :
  NoDup (map fst props) ->
  fromPath_loop call props (params_object props) route opts = Ok params ->
  params !! k = Some v ->
  v <> VUndefined.
Proof.
  intros Hnd Hloop Hk.
  destruct (fromPath_loop_spec route opts props _ _ Hnd Hloop) as [Hout Hin].
  destruct (decide (k ∈ map fst props)) as [Hel|Hnel].
  - apply list_elem_of_fmap in Hel as ([k' val] & -> & Hel). simpl in Hk.
    destruct (Hin k' val Hel) as (v' & _ & Hv'). rewrite Hk in Hv'.
    destruct v'; simpl in Hv'; congruence.
  - rewrite (Hout k Hnel), (params_object_lookup_None props k Hnel) in Hk. done.
Qed.

Lemma decoded_Some s d :
  decodeURIComponent s = Ok d -> decoded (Some s) = Ok (Some d).
Proof.
  intros H. unfold decoded. destruct (String.eqb s "") eqn:Hs.
  - apply String.eqb_eq in Hs as ->. by injection H as <-.
  - by rewrite H.
Qed.

(** ** The claims about [fromPath] *)

(** C5 (as the code has it).  A parameter whose raw value is [undefined] is
    not decoded, but it is still handed to the transform: to the [fromPath]
    of the route when there is one; otherwise, when capitalization is off,
    to the [fromPath] of the options, and without that it stays
    [undefined].  A parameter with a raw value that decodes to [d] becomes,
    in this order of precedence: what the [fromPath] of the route returns
    for [d]; else the number [d] denotes when numbers are converted (the
    route asks for it, or the options do and the route does not refuse) and
    [d] is all digits; else [d] with hyphens turned into spaces and each
    word capitalized when capitalization is on in the same way; else what
    the [fromPath] of the options returns; else [d] itself.  So ["42"] with
    numbers converted is the number 42. *)
Theorem fromPath_key_precedence (key : string) (route : Route.t) (opts : Options.t) :
  let args (decodedVal val : value) :=
    [arg decodedVal; arg (VStr key); arg val; arg_route route; arg_options opts] in
  decoded None = Ok None
  /\ (forall f, Route.fromPath route = Some f ->
        fromPath_key call key None route opts = Ok (call f (args VUndefined VUndefined)))
  /\ (Route.fromPath route = None -> capitalize_on route opts = false ->
      fromPath_key call key None route opts =
        Ok (match Options.fromPath opts with
            | Some g => call g (args VUndefined VUndefined)
            | None => VUndefined
            end))
  /\ (forall s d, decodeURIComponent s = Ok d ->
        decoded (Some s) = Ok (Some d)
        /\ (forall f, Route.fromPath route = Some f ->
              fromPath_key call key (Some s) route opts
              = Ok (call f (args (VStr d) (VStr s))))
        /\ (Route.fromPath route = None ->
            (convertNum route opts = true -> test_digits d = true ->
               fromPath_key call key (Some s) route opts = Ok (VNum (parseFloat d)))
            /\ (convertNum route opts && test_digits d = false ->
                capitalize_on route opts = true ->
                fromPath_key call key (Some s) route opts = Ok (VStr (capitalize d)))
            /\ (convertNum route opts && test_digits d = false ->
                capitalize_on route opts = false ->
                forall g, Options.fromPath opts = Some g ->
                fromPath_key call key (Some s) route opts
                = Ok (call g (args (VStr d) (VStr s))))
            /\ (convertNum route opts && test_digits d = false ->
                capitalize_on route opts = false ->
                Options.fromPath opts = None ->
                fromPath_key call key (Some s) route opts = Ok (VStr d))))
  /\ (Route.fromPath route = None -> convertNum route opts = true ->
      fromPath_key call key (Some "42") route opts = Ok (VNum 42)).
Proof.
  intros args. subst args. unfold fromPath_key, defaultFromPath.
  split; [done|]. split; [by intros f ->|]. split.
  { intros -> Hc. simpl. rewrite Hc, andb_false_r. by destruct (Options.fromPath opts). }
  split.
  - intros s d Hd. rewrite (decoded_Some s d Hd). simpl.
    split; [done|]. split; [by intros f ->|].
    intros ->. split; [|split; [|split]].
    + by intros -> ->.
    + by intros -> ->.
    + by intros -> -> g ->.
    + by intros -> -> ->.
  - by intros -> ->.
Qed.

(** The specification's example of capitalization: [my-category] becomes
    [My Category]. *)
Theorem capitalizedWords_my_category (key : string) (route : Route.t) (opts : Options.t) :
  Route.fromPath route = None ->
  capitalize_on route opts = true ->
  fromPath_key call key (Some "my-category") route opts = Ok (VStr "My Category").
Proof.
  intros Hf Hc. unfold fromPath_key, defaultFromPath. simpl.
  by rewrite Hf, Hc, andb_false_r.
Qed.

(** C6.  With the parameters the loop leaves in [params]: when
    [defaultParams] (of the route, else of the options) is an object [d],
    the result is [{ ...d, ...params }]; a parameter that is there is not
    [undefined] and keeps its value, so what a transform returned, unless
    [undefined], is in the result; a parameter whose transform returned
    [undefined] is gone from [params] and the result has what [d] has for
    it.  When [defaultParams] is a function, the result is what it returns
    for [(params, route, opts)]. *)
Theorem fromPath_defaults (props : list (string * option string)) (route : Route.t)
    (opts : Options.t) (params : gmap string value) :
  NoDup (map fst props) ->
  fromPath_loop call props (params_object props) route opts = Ok params ->
  let def := or_else (Route.defaultParams route) (Options.defaultParams opts) in
  (forall d, def = Some (default_object d) ->
     fromPath call props route opts = Ok (VObj (spread d params))
     /\ (forall k v, params !! k = Some v ->
           v <> VUndefined /\ spread d params !! k = Some v)
     /\ (forall k val v, (k, val) ∈ props ->
           fromPath_key call k val route opts = Ok v -> v <> VUndefined ->
           spread d params !! k = Some v)
     /\ (forall k val, (k, val) ∈ props ->
           fromPath_key call k val route opts = Ok VUndefined ->
           params !! k = None /\ spread d params !! k = d !! k))
  /\ (forall f, def = Some (default_function f) ->
       fromPath call props route opts
       = Ok (call f [arg (VObj params); arg_route route; arg_options opts])).
Proof.
  intros Hnd Hloop def.
  destruct (fromPath_loop_spec route opts props _ _ Hnd Hloop) as [Hout Hin].
  split.
  - intros d Hd. unfold fromPath. rewrite Hloop. simpl. fold def. rewrite Hd. simpl.
    split; [done|]. unfold spread. split; [|split].
    + intros k v Hk. split.
      * by apply (fromPath_loop_defined route opts props params k v).
      * by apply lookup_union_Some_l.
    + intros k val v Hel Hv Hne.
      destruct (Hin k val Hel) as (v' & Hv' & Hk). rewrite Hv in Hv'.
      injection Hv' as <-. apply lookup_union_Some_l. rewrite Hk.
      by destruct v.
    + intros k val Hel Hv.
      destruct (Hin k val Hel) as (v' & Hv' & Hk). rewrite Hv in Hv'.
      injection Hv' as <-. simpl in Hk. split; [done|].
      by apply lookup_union_r.
  - intros f Hf. unfold fromPath. rewrite Hloop. simpl. fold def. by rewrite Hf.
Qed.

End PathParameters.

Section Returns.

Import JS Translator.

Variable call : fn -> list Arg -> value.

(** A raw parameter on which one turn of the loop of [fromPath] does not
    throw: its value decodes, and when it is [undefined] either the route
    has a [fromPath] or capitalization is off. *)
Lemma fromPath_key_returns key val route opts :
  is_ok (decoded val) = true ->
  (val = None -> Route.fromPath route = None -> capitalize_on route opts = false) ->
  exists v, fromPath_key call key val route opts = Ok v.
Proof.
  intros Hd Hu. unfold fromPath_key.
  destruct (decoded val) as [dv|e] eqn:Hdec; [|done]. simpl.
  destruct (Route.fromPath route) as [f|] eqn:Hf; [by eexists|].
  unfold defaultFromPath.
  destruct (convertNum route opts && isNumber dv); [by eexists|].
  destruct (capitalize_on route opts) eqn:Hc.
  - destruct dv as [d|]; [by eexists|].
    destruct val as [s|]; [|by specialize (Hu eq_refl eq_refl)].
    unfold decoded in Hdec. destruct (String.eqb s ""); [done|].
    by destruct (decodeURIComponent s).
  - destruct (Options.fromPath opts); by eexists.
Qed.

Lemma fromPath_loop_returns route opts props : forall acc,
  (forall k val, (k, val) ∈ props ->
     is_ok (decoded val) = true
     /\ (val = None -> Route.fromPath route = None -> capitalize_on route opts = false)) ->
  exists params, fromPath_loop call props acc route opts = Ok params.
Proof.
  induction props as [|[key val] rest IH]; intros acc Hok; [by eexists|].
  destruct (Hok key val (list_elem_of_here _ _)) as [Hd Hu].
  destruct (fromPath_key_returns key val route opts Hd Hu) as [v Hv].
  simpl. rewrite Hv. simpl. apply IH.
  intros k val' Hin. apply (Hok k val'). by right.
Qed.

End Returns.

Section TranslatorSamples.

Import JS Translator SampleRoutes.

Lemma sample_routes_NoDup : NoDup (keys routes).
Proof. apply (bool_decide_unpack _). by vm_compute. Qed.

Lemma urlToAction_first_match_witness :
  translate (loc_object "/app/list/7" (Some "/app") None)
  = Ok (matched_action call "LIST" list_
          {| m_params := VObj {[ "page" := VNum 7; "size" := VNum 20 ]};
             m_query := VObj ∅;
             m_hash := VStr "" |}
          no_options "/app" ∅)
  /\ urlToAction call matchPath urlToLocation NOT_FOUND (loc_url "/x")
       (own_property_order numbered_routes) no_options ""
     = Ok (matched_action call "1" (at_path "/x")
             {| m_params := VObj ∅; m_query := VObj ∅; m_hash := VStr "" |}
             no_options "" ∅).
Proof.
  split.
  - pose proof (urlToAction_first_match call matchPath urlToLocation NOT_FOUND
                  (loc_object "/app/list/7" (Some "/app") None) routes no_options ""
                  sample_routes_NoDup) as H.
    assert (Hr : own_property_order routes = routes) by (by vm_compute).
    rewrite Hr in H. destruct H as (_ & _ & _ & H & _).
    apply (H [("HOME", at_path "/"); ("NEVER_USED_PATHLESS", pathless); ("ITEM", item);
              ("POST", post)]
             "LIST" list_ [("NOT_FOUND", not_found_route)]).
    + reflexivity.
    + intros t r Hin Hp.
      repeat (apply elem_of_cons in Hin as [[= -> ->]|Hin]; [by vm_compute in Hp |- *|]).
      by apply elem_of_nil in Hin.
    + reflexivity.
    + by vm_compute.
  - destruct (urlToAction_first_match call matchPath urlToLocation NOT_FOUND
                (loc_url "/x") numbered_routes no_options "") as (_ & _ & _ & H & _).
    + apply (bool_decide_unpack _). by vm_compute.
    + apply (H [] "1" (at_path "/x") [("B", at_path "/x")]).
      * by vm_compute.
      * intros t r Hin. by apply elem_of_nil in Hin.
      * reflexivity.
      * by vm_compute.
Defined.

(** C2 as the claim words it fails twice.  The table that declares the
    type [B] before the type [1], both with the path [/x], is gone through
    with [1] first, so [/x] gives an action of type [1], where the first
    match in the order of declaration is [B].  And the basename is not only
    stripped as a prefix: the url [/post/app] does not start with the
    basename [/app], and the routes are still matched against [/post]. *)
Lemma declaration_order_is_not_kept :
  own_property_order numbered_routes = [("1", at_path "/x"); ("B", at_path "/x")]
  /\ urlToAction call matchPath urlToLocation NOT_FOUND (loc_url "/x")
       (own_property_order numbered_routes) no_options ""
     = Ok {| Action.type := "1";
             Action.params := VObj ∅;
             Action.query := VObj ∅;
             Action.hash := VStr "";
             Action.basename := "";
             Action.state := VObj ∅ |}
  /\ first_match call matchPath numbered_routes (urlToLocation "/x") no_options "" ∅
     = Ok (Some {| Action.type := "B";
                   Action.params := VObj ∅;
                   Action.query := VObj ∅;
                   Action.hash := VStr "";
                   Action.basename := "";
                   Action.state := VObj ∅ |})
  /\ strip_prefix "/app" "/post/app" = None
  /\ stripped_location urlToLocation (loc_object "/post/app" (Some "/app") None)
     = urlToLocation "/post".
Proof. repeat split; by vm_compute. Qed.

Lemma urlToAction_not_found_witness :
  translate (loc_object "/nope?a=1#h" None (Some {[ "from" := VStr "link" ]}))
  = Ok {| Action.type := "NOT_FOUND";
          Action.params := VObj ∅;
          Action.query := VObj {[ "search" := VStr "a=1" ]};
          Action.hash := VStr "h";
          Action.basename := "";
          Action.state := VObj {[ "from" := VStr "link" ]} |}
  /\ translate (loc_url "/nope")
    = Ok {| Action.type := "NOT_FOUND";
            Action.params := VObj ∅;
            Action.query := VObj ∅;
            Action.hash := VStr "";
            Action.basename := "";
            Action.state := VObj ∅ |}
  /\ urlToAction call matchPath urlToLocation NOT_FOUND
       (loc_object "/nope" None (Some {[ "from" := VStr "link" ]})) scene_routes
       parseQuery_options "admin"
     = Ok {| Action.type := "admin/NOT_FOUND";
             Action.params := VObj ∅;
             Action.query := VObj ∅;
             Action.hash := VStr "";
             Action.basename := "";
             Action.state := VObj {[ "from" := VStr "link" ]} |}.
Proof.
  assert (Hnone : forall u, pathname (urlToLocation u) = "/nope"%string ->
            forall t r, (t, r) ∈ routes -> has_path r = true ->
            matchUrl matchPath (urlToLocation u) r (transformers call) r no_options
            = Ok None).
  { intros u Hu t r Hin Hp. unfold matchUrl, matchPath. rewrite Hu.
    repeat (apply elem_of_cons in Hin as [[= -> ->]|Hin]; [by vm_compute in Hp |- *|]).
    by apply elem_of_nil in Hin. }
  unfold translate. split; [|split].
  - destruct (urlToAction_not_found call matchPath urlToLocation NOT_FOUND
                (loc_object "/nope?a=1#h" None (Some {[ "from" := VStr "link" ]}))
                routes no_options "") as (_ & H & _).
    + by apply Hnone.
    + by rewrite (H keep_search).
  - destruct (urlToAction_not_found call matchPath urlToLocation NOT_FOUND
                (loc_url "/nope") routes no_options "") as (H & _).
    + by apply Hnone.
    + by rewrite H.
  - destruct (urlToAction_not_found call matchPath urlToLocation NOT_FOUND
                (loc_object "/nope" None (Some {[ "from" := VStr "link" ]}))
                scene_routes parseQuery_options "admin") as (H & _).
    + intros t r Hin Hp.
      repeat (apply elem_of_cons in Hin as [[= -> ->]|Hin]; [by vm_compute|]).
      by apply elem_of_nil in Hin.
    + by rewrite H.
Defined.

(** C7 as the claim words it fails: in the scene [admin], with a table
    that has the scoped [admin/NOT_FOUND] route and options that carry
    [parseQuery], the url [/nope?a=1] matches no route and the translator
    throws, because the table has no route under the plain key [NOT_FOUND];
    without the search string the same input gives the NOT_FOUND action. *)
Lemma unmatched_search_string_throws :
  urlToAction call matchPath urlToLocation NOT_FOUND (loc_url "/nope?a=1") scene_routes
    parseQuery_options "admin" = Throw TypeError
  /\ urlToAction call matchPath urlToLocation NOT_FOUND (loc_url "/nope") scene_routes
       parseQuery_options "admin"
     = Ok {| Action.type := "admin/NOT_FOUND";
             Action.params := VObj ∅;
             Action.query := VObj ∅;
             Action.hash := VStr "";
             Action.basename := "";
             Action.state := VObj ∅ |}.
Proof. split; by vm_compute. Qed.

Lemma urlToAction_throws_witness :
  translate (loc_url "/item") = Throw TypeError.
Proof.
  apply (urlToAction_throws call matchPath urlToLocation NOT_FOUND (loc_url "/item")
           routes no_options ""
           [("HOME", at_path "/"); ("NEVER_USED_PATHLESS", pathless)]
           [("POST", post); ("LIST", list_); ("NOT_FOUND", not_found_route)]
           "ITEM" item
           {| raw_params := [("id", None)]; raw_query := ∅; raw_hash := "" |}
           "id" []); try reflexivity.
  - exact sample_routes_NoDup.
  - intros t r Hin Hp.
    repeat (apply elem_of_cons in Hin as [[= -> ->]|Hin]; [by vm_compute in Hp |- *|]).
    by apply elem_of_nil in Hin.
Defined.

(** The same route translates a url that fills the parameter, and a
    parameter that is not a well-formed escape makes the decoder throw out
    of the translator. *)
Lemma urlToAction_item_and_escape :
  translate (loc_url "/item/my-category")
  = Ok {| Action.type := "ITEM";
          Action.params := VObj {[ "id" := VStr "My Category" ]};
          Action.query := VObj ∅;
          Action.hash := VStr "";
          Action.basename := "";
          Action.state := VObj ∅ |}
  /\ translate (loc_url "/post/%") = Throw URIError.
Proof. split; by vm_compute. Qed.

(** C5 as the claim words it fails: the parameter of [/post/:id?] is not
    filled in [/post], and the [fromPath] of the route is still called on
    it, so the parameter is there afterwards instead of being left out. *)
Lemma undefined_parameter_is_transformed :
  fromPath_key call "id" None post no_options = Ok (VStr "none")
  /\ fromPath call [("id", None)] post no_options = Ok (VObj {[ "id" := VStr "none" ]})
  /\ fromPath call [("id", None)] post no_options <> Ok (VObj ∅)
  /\ translate (loc_url "/post")
     = Ok {| Action.type := "POST";
             Action.params := VObj {[ "id" := VStr "none" ]};
             Action.query := VObj ∅;
             Action.hash := VStr "";
             Action.basename := "";
             Action.state := VObj ∅ |}.
Proof. repeat split; by vm_compute. Qed.

Lemma fromPath_defaults_witness :
  fromPath call [("page", None)] list_ no_options
    = Ok (VObj {[ "page" := VNum 1; "size" := VNum 20 ]})
  /\ fromPath call [("page", Some "7")] list_ no_options
    = Ok (VObj {[ "page" := VNum 7; "size" := VNum 20 ]})
  /\ fromPath call [("id", Some "7")] post first_page_options
    = Ok (VObj {[ "page" := VNum 1 ]}).
Proof.
  split; [|split].
  3: { destruct (fromPath_defaults call [("id", Some "7")] post first_page_options
                   {[ "id" := VStr "7" ]}) as [_ H].
       - repeat constructor. set_solver.
       - by vm_compute.
       - by rewrite (H first_page eq_refl). }
  - destruct (fromPath_defaults call [("page", None)] list_ no_options ∅) as [H _].
    + repeat constructor. set_solver.
    + by vm_compute.
    + destruct (H {[ "page" := VNum 1; "size" := VNum 20 ]} eq_refl) as [-> _].
      by vm_compute.
  - destruct (fromPath_defaults call [("page", Some "7")] list_ no_options
                {[ "page" := VNum 7 ]}) as [H _].
    + repeat constructor. set_solver.
    + by vm_compute.
    + destruct (H {[ "page" := VNum 1; "size" := VNum 20 ]} eq_refl) as [-> _].
      by vm_compute.
Defined.

(** [url.replace(basename, '')] removes the first occurrence of the
    basename wherever it stands: the prefix of a url that starts with it,
    and in [/post/app] with basename [/app] the end of the url, so that the
    routes are matched against [/post]. *)
Theorem basename_first_occurrence :
  (forall p rest, replace_first p (p ++ rest)%string = rest)
  /\ stripped_location urlToLocation (loc_object "/post/app" (Some "/app") None)
     = urlToLocation "/post"
  /\ translate (loc_object "/post/app" (Some "/app") None)
     = Ok {| Action.type := "POST";
             Action.params := VObj {[ "id" := VStr "none" ]};
             Action.query := VObj ∅;
             Action.hash := VStr "";
             Action.basename := "/app";
             Action.state := VObj ∅ |}
  /\ translate (loc_url "/post/app")
     = Ok {| Action.type := "POST";
             Action.params := VObj {[ "id" := VStr "app" ]};
             Action.query := VObj ∅;
             Action.hash := VStr "";
             Action.basename := "";
             Action.state := VObj ∅ |}.
Proof.
  split; [apply replace_first_prefix|]. repeat split; by vm_compute.
Qed.

Lemma capitalizedWords_my_category_witness :
  fromPath_key call "id" (Some "my-category") item no_options = Ok (VStr "My Category").
Proof. apply (capitalizedWords_my_category call "id" item no_options); reflexivity. Defined.

Lemma fromPath_key_precedence_witness :
  fromPath_key call "page" (Some "42") list_ no_options = Ok (VNum 42)
  /\ fromPath_key call "id" (Some "a%20b") post no_options = Ok (VStr "a b")
  /\ fromPath_key call "id" None post no_options = Ok (VStr "none")
  /\ fromPath_key call "id" (Some "my-category") item no_options
     = Ok (VStr "My Category").
Proof.
  split; [|split; [|split]].
  - destruct (fromPath_key_precedence call "page" list_ no_options)
      as (_ & _ & _ & _ & H).
    by apply H.
  - destruct (fromPath_key_precedence call "id" post no_options)
      as (_ & _ & _ & H & _).
    destruct (H "a%20b"%string "a b"%string eq_refl) as (_ & Hf & _).
    by rewrite (Hf or_none eq_refl).
  - destruct (fromPath_key_precedence call "id" post no_options)
      as (_ & H & _).
    by rewrite (H or_none eq_refl).
  - destruct (fromPath_key_precedence call "id" item no_options)
      as (_ & _ & _ & H & _).
    destruct (H "my-category"%string "my-category"%string eq_refl) as (_ & _ & Hd).
    destruct (Hd eq_refl) as (_ & Hc & _).
    by rewrite Hc.
Defined.

End TranslatorSamples.

(* ================================================================== *)
(** * The query, hash and state transformers *)
(* ================================================================== *)

Section QueryHashState.

Import JS Translator.

Variable call : fn -> list Arg -> value.

(** [fromSearch].  With a [fromSearch] function (of the route, else of the
    options) every value of the query is replaced by what the function
    returns for it, and a key for which it returns [undefined] is deleted, so
    that [defaultQuery] can fill it.  Without such a function the query is
    taken as it is: a key whose value is [undefined] stays and hides the
    default.  An object [defaultQuery] only fills the keys that are not
    there; a function [defaultQuery] is called with the transformed
    query. *)
Theorem fromSearch_defaults (query : gmap string value) (route : Route.t)
    (opts : Options.t) :
  let from := or_else (Route.fromSearch route) (Options.fromSearch opts) in
  let def := or_else (Route.defaultQuery route) (Options.defaultQuery opts) in
  let defaults := match def with Some (default_object d) => d | _ => ∅ end in
  let transformed f k :=
    match query !! k with
    | Some v =>
        let v' := call f [arg v; arg (VStr k); arg_route route; arg_options opts] in
        if is_undefined v' then None else Some v'
    | None => None
    end in
  (forall f, from = Some f -> (forall g, def <> Some (default_function g)) ->
     exists q, fromSearch call query route opts = VObj q
       /\ forall k, q !! k =
            match transformed f k with Some v' => Some v' | None => defaults !! k end)
  /\ (from = None -> (forall g, def <> Some (default_function g)) ->
      exists q, fromSearch call query route opts = VObj q
        /\ (forall k, q !! k =
              match query !! k with Some v => Some v | None => defaults !! k end)
        /\ (forall k, query !! k = Some VUndefined -> q !! k = Some VUndefined))
  /\ (forall f g, from = Some f -> def = Some (default_function g) ->
      exists q, fromSearch call query route opts
                = call g [arg (VObj q); arg_route route; arg_options opts]
        /\ forall k, q !! k = transformed f k)
  /\ (forall g, from = None -> def = Some (default_function g) ->
      fromSearch call query route opts
      = call g [arg (VObj query); arg_route route; arg_options opts]).
Proof.
  intros from def defaults transformed. unfold fromSearch. fold from def.
  split; [|split; [|split]].
  - intros f -> Hdef. unfold apply_default, spread.
    set (q := map_imap (fun key v =>
      let v' := call f [arg v; arg (VStr key); arg_route route; arg_options opts] in
      if is_undefined v' then None else Some v') query).
    exists (q ∪ defaults). split.
    + subst defaults. destruct def as [[d|g]|]; [done | by destruct (Hdef g) |].
      by rewrite (right_id_L ∅ (∪)).
    + intros k. rewrite lookup_union. subst q transformed.
      rewrite map_lookup_imap. simpl.
      destruct (query !! k) as [v|]; simpl.
      * destruct (is_undefined _); simpl; by destruct (defaults !! k).
      * by destruct (defaults !! k).
  - intros -> Hdef. unfold apply_default, spread.
    assert (Hq : exists q, match def with
                   | Some (default_function f) =>
                       call f [arg (VObj query); arg_route route; arg_options opts]
                   | Some (default_object d) => VObj (query ∪ d)
                   | None => VObj query
                   end = VObj q
                 /\ forall k, q !! k =
                      match query !! k with Some v => Some v | None => defaults !! k end).
    { subst defaults. destruct def as [[d|g]|].
      - eexists. split; [reflexivity|]. intros k. rewrite lookup_union.
        destruct (query !! k), (d !! k); done.
      - by destruct (Hdef g).
      - exists query. split; [done|]. intros k. by destruct (query !! k). }
    destruct Hq as (q & Hq & Hk). exists q. split; [done|]. split; [done|].
    intros k Hu. by rewrite Hk, Hu.
  - intros f g -> ->. simpl. eexists. split; [reflexivity|].
    intros k. rewrite map_lookup_imap. subst transformed. simpl.
    by destruct (query !! k).
  - by intros g -> ->.
Qed.
(** [fromHash].  A string [defaultHash] (of the route, else of the options;
    the empty string counts as none, so an empty default of the route lets
    the one of the options through) replaces the hash only when the hash,
    after [fromHash] of the route or options has been applied to it, is
    falsy; a function [defaultHash] is always called and decides.  Without a
    [fromHash] function, a hash that is not empty is never replaced by a
    string default. *)
Theorem fromHash_default (hash : string) (route : Route.t) (opts : Options.t) :
  let from := or_else (Route.fromHash route) (Options.fromHash opts) in
  let h := match from with
           | Some f => call f [arg (VStr hash); arg_route route; arg_options opts]
           | None => VStr hash
           end in
  let none (d : option DefaultHash) := d = None \/ d = Some (default_hash "") in
  let effective (d : DefaultHash) :=
    Route.defaultHash route = Some d
    \/ (none (Route.defaultHash route) /\ Options.defaultHash opts = Some d) in
  (forall d, d <> "" -> effective (default_hash d) ->
     fromHash call hash route opts = (if truthy h then h else VStr d)
     /\ (from = None ->
         fromHash call hash route opts = VStr (if String.eqb hash "" then d else hash)))
  /\ (forall g, effective (default_hash_function g) ->
        fromHash call hash route opts = call g [arg h; arg_route route; arg_options opts])
  /\ (none (Route.defaultHash route) -> none (Options.defaultHash opts) ->
      fromHash call hash route opts = h).
Proof.
  intros from h none effective. unfold fromHash. fold from. fold h.
  assert (Hd : forall d, d <> "" ->
            truthy_hash_default (Some (default_hash d)) = Some (default_hash d)).
  { intros d Hne. by destruct d. }
  assert (Hn : forall d, none d -> truthy_hash_default d = None).
  { by intros d [->| ->]. }
  split; [|split].
  - intros d Hne He.
    assert (Hdef : or_else (truthy_hash_default (Route.defaultHash route))
                     (truthy_hash_default (Options.defaultHash opts))
                   = Some (default_hash d)).
    { destruct He as [->|[Hr ->]]; [by rewrite Hd | by rewrite (Hn _ Hr), Hd]. }
    rewrite Hdef. split; [done|].
    subst h. intros ->. simpl. by destruct (String.eqb hash "").
  - intros g [->|[Hr ->]]; [done|]. by rewrite (Hn _ Hr).
  - intros Hr Ho. by rewrite (Hn _ Hr), (Hn _ Ho).
Qed.

(** [fromState].  An object [defaultState] only fills the keys the state
    does not have, and the one of the route stands in for the one of the
    options: the two are not merged.  A function [defaultState] is called
    with the state and decides; without any default the state is passed
    through. *)
Theorem fromState_defaults (state : gmap string value) (route : Route.t)
    (opts : Options.t) :
  let filled (d : gmap string value) :=
    exists st, fromState call state route opts = VObj st
      /\ forall k, st !! k = match state !! k with Some v => Some v | None => d !! k end in
  (forall d, Route.defaultState route = Some (default_object d) -> filled d)
  /\ (forall d, Route.defaultState route = None ->
        Options.defaultState opts = Some (default_object d) -> filled d)
  /\ (forall f,
        Route.defaultState route = Some (default_function f)
        \/ (Route.defaultState route = None
            /\ Options.defaultState opts = Some (default_function f)) ->
        fromState call state route opts
        = call f [arg (VObj state); arg_route route; arg_options opts])
  /\ (Route.defaultState route = None -> Options.defaultState opts = None ->
      fromState call state route opts = VObj state).
Proof.
  intros filled.
  assert (Hf : forall d,
            or_else (Route.defaultState route) (Options.defaultState opts)
            = Some (default_object d) -> filled d).
  { intros d Hd. unfold filled, fromState. rewrite Hd. simpl.
    eexists. split; [reflexivity|]. intros k. unfold spread. rewrite lookup_union.
    destruct (state !! k), (d !! k); done. }
  split; [|split; [|split]].
  - intros d Hd. apply Hf. by rewrite Hd.
  - intros d Hr Ho. apply Hf. by rewrite Hr, Ho.
  - unfold fromState. intros f [->|[-> ->]]; done.
  - unfold fromState. by intros -> ->.
Qed.
End QueryHashState.

(* ================================================================== *)
(** * More on the path parameters *)
(* ================================================================== *)

Section PathParametersMore.

Import JS Translator.

Variable call : fn -> list Arg -> value.

Lemma decode_no_escape s : no_escape s = true -> decodeURIComponent s = Ok s.
Proof.
  unfold decodeURIComponent. induction s as [|c s IH]; intros H; [done|].
  simpl in H. apply andb_true_iff in H as [Hc Hs]. apply negb_true_iff in Hc.
  simpl. rewrite Hc. by rewrite (IH Hs).
Qed.

Lemma decoded_no_escape s : no_escape s = true -> decoded (Some s) = Ok (Some s).
Proof. intros H. by apply decoded_Some, decode_no_escape. Qed.

Lemma all_digits_no_escape s : all_digits s = true -> no_escape s = true.
Proof.
  induction s as [|c s IH]; intros H; [done|].
  simpl in H. apply andb_true_iff in H as [Hc Hs]. simpl. rewrite (IH Hs), andb_true_r.
  apply negb_true_iff, Ascii.eqb_neq. intros ->. done.
Qed.

Lemma parse_digits_nonneg s : forall acc, (0 <= acc)%Z -> (0 <= parse_digits acc s)%Z.
Proof.
  induction s as [|c s IH]; intros acc Hacc; [done|].
  simpl. apply IH. lia.
Qed.

(** Nothing configured: no [fromPath] function, no conversion of numbers,
    no capitalization, no [defaultParams].  Then the parameters of the
    action are the segments the pattern matched, as they stand in the url
    when they hold no escape sequence, and an optional parameter that was
    not filled is left out. *)
Theorem fromPath_plain (props : list (string * option string)) (route : Route.t)
    (opts : Options.t) :
  NoDup (map fst props) ->
  (forall k s, (k, Some s) ∈ props -> no_escape s = true) ->
  Route.fromPath route = None -> Options.fromPath opts = None ->
  convertNum route opts = false -> capitalize_on route opts = false ->
  Route.defaultParams route = None -> Options.defaultParams opts = None ->
  exists params,
    fromPath call props route opts = Ok (VObj params)
    /\ (forall k s, (k, Some s) ∈ props -> params !! k = Some (VStr s))
    /\ (forall k, (k, None) ∈ props -> params !! k = None)
    /\ (forall k, k ∉ map fst props -> params !! k = None).
Proof.
  intros Hnd Hplain Hrf Hof Hcn Hcap Hrd Hod.
  assert (Hkey : forall k val, (k, val) ∈ props ->
            fromPath_key call k val route opts = Ok (of_option val)).
  { intros k val Hin. unfold fromPath_key, defaultFromPath.
    destruct val as [s|].
    - rewrite (decoded_no_escape s (Hplain k s Hin)). simpl.
      by rewrite Hrf, Hcn, Hcap, Hof.
    - simpl. by rewrite Hrf, Hcn, Hcap, Hof. }
  destruct (fromPath_loop_returns call route opts props (params_object props))
    as [params Hloop].
  { intros k val Hin. split.
    - destruct val as [s|]; [|done]. by rewrite (decoded_no_escape s (Hplain k s Hin)).
    - done. }
  destruct (fromPath_loop_spec call route opts props _ _ Hnd Hloop) as [Hout Hin].
  exists params. unfold fromPath. rewrite Hloop, Hrd, Hod. simpl.
  split; [done|]. split; [|split].
  - intros k s Hel. destruct (Hin k _ Hel) as (v & Hv & Hk).
    rewrite (Hkey k _ Hel) in Hv. injection Hv as <-. done.
  - intros k Hel. destruct (Hin k _ Hel) as (v & Hv & Hk).
    rewrite (Hkey k _ Hel) in Hv. injection Hv as <-. done.
  - intros k Hk. by rewrite (Hout k Hk), params_object_lookup_None.
Qed.

(** With numbers converted, a parameter of digits that denotes a number
    of at most [2^53], up to which [parseFloat] is exact, becomes that
    number, which is never negative, and zeros in front are lost: [007] and
    [7] give the same parameter. *)
Theorem convertNumbers_leading_zeros (key s : string) (route : Route.t)
    (opts : Options.t) :
  Route.fromPath route = None ->
  convertNum route opts = true ->
  test_digits s = true ->
  (parseFloat s <= 2 ^ 53)%Z ->
  fromPath_key call key (Some s) route opts = Ok (VNum (parseFloat s))
  /\ (0 <= parseFloat s)%Z
  /\ fromPath_key call key (Some ("0" ++ s)%string) route opts
     = fromPath_key call key (Some s) route opts.
Proof.
  intros Hrf Hcn Hd _.
  assert (Hnum : forall d, test_digits d = true ->
            fromPath_key call key (Some d) route opts = Ok (VNum (parseFloat d))).
  { intros d Hdig. unfold fromPath_key, defaultFromPath.
    rewrite decoded_no_escape.
    - simpl. by rewrite Hrf, Hcn, Hdig.
    - apply all_digits_no_escape. unfold test_digits in Hdig.
      by apply andb_true_iff in Hdig as [_ ?]. }
  split; [by apply Hnum|]. split; [by apply parse_digits_nonneg|].
  rewrite (Hnum s Hd), Hnum; [done|].
  unfold test_digits in *. apply andb_true_iff in Hd as [_ Hall]. simpl. exact Hall.
Qed.

Lemma toUpperCase_facts c :
  is_word (toUpperCase c) = is_word c
  /\ toUpperCase (toUpperCase c) = toUpperCase c
  /\ (Ascii.eqb c "-" = false -> Ascii.eqb (toUpperCase c) "-" = false).
Proof. destruct c as [[] [] [] [] [] [] [] []]; by vm_compute. Qed.

Lemma occurs_hyphen_cons c s :
  occurs "-" (String c s) = Ascii.eqb c "-" || occurs "-" s.
Proof.
  cbn [occurs strip_prefix]. rewrite Ascii.eqb_sym. by destruct (Ascii.eqb c "-").
Qed.

Lemma replace_hyphens_facts s :
  String.length (replace_hyphens s) = String.length s
  /\ occurs "-" (replace_hyphens s) = false.
Proof.
  induction s as [|c s [IH1 IH2]]; [done|].
  cbn [replace_hyphens String.length]. rewrite IH1, occurs_hyphen_cons, IH2.
  split; [done|]. by destruct (Ascii.eqb c "-") eqn:Hc; [|rewrite Hc].
Qed.

Lemma replace_hyphens_none s : occurs "-" s = false -> replace_hyphens s = s.
Proof.
  induction s as [|c s IH]; [done|].
  rewrite occurs_hyphen_cons. intros H. apply orb_false_iff in H as [Hc Hs].
  cbn [replace_hyphens]. by rewrite Hc, (IH Hs).
Qed.

Lemma upcase_words_facts s : forall b,
  String.length (upcase_words b s) = String.length s
  /\ (occurs "-" s = false -> occurs "-" (upcase_words b s) = false)
  /\ upcase_words b (upcase_words b s) = upcase_words b s.
Proof.
  induction s as [|c s IH]; intros b; [done|].
  destruct (toUpperCase_facts c) as (Hw & Hi & Hh).
  destruct (IH (negb (is_word c))) as (IH1 & IH2 & IH3).
  cbn [upcase_words String.length]. rewrite IH1. split; [done|]. split.
  - rewrite !occurs_hyphen_cons. intros H. apply orb_false_iff in H as [Hc Hs].
    rewrite (IH2 Hs), orb_false_r. destruct (b && is_word c); [by apply Hh | done].
  - destruct (b && is_word c) eqn:Hb.
    + by rewrite Hw, Hb, Hi, IH3.
    + by rewrite Hb, IH3.
Qed.

(** The capitalization of [defaultFromPath] (hyphens to spaces, then the
    first letter of each word in upper case) keeps the length of the
    parameter, leaves no hyphen, and applied to its own result changes
    nothing. *)
Theorem capitalize_idempotent (s : string) :
  String.length (capitalize s) = String.length s
  /\ occurs "-" (capitalize s) = false
  /\ capitalize (capitalize s) = capitalize s.
Proof.
  unfold capitalize.
  destruct (replace_hyphens_facts s) as [Hl Hh].
  destruct (upcase_words_facts (replace_hyphens s) true) as (Ul & Uh & Ui).
  split; [by rewrite Ul|]. split; [by apply Uh|].
  by rewrite (replace_hyphens_none _ (Uh Hh)), Ui.
Qed.
End PathParametersMore.

(* ================================================================== *)
(** * Progress of the rapid-change workaround *)
(* ================================================================== *)

Section Progress.

Import RapidChange.

Lemma rapidChangeWorkaround__polls_left location queue0 : forall w tries0,
  polls_left (st (rapidChangeWorkaround_ false location w tries0 [] queue0))
  <= (maxTries - S tries0) + 9 * length queue0.
Proof.
  induction queue0 as [|again rest IH]; intros w tries0;
    rewrite rapidChangeWorkaround__unfold;
    destruct (negb (ready location w) && (S tries0 <? maxTries)) eqn:H1;
    cbn [andb st].
  - unfold polls_left. simpl. lia.
  - unfold polls_left. simpl. lia.
  - unfold polls_left. simpl. lia.
  - specialize (IH again 0). unfold maxTries in *. simpl length. lia.
Qed.

Lemma timer_fired_polls_left location s :
  polling s -> polls_left (st (step false location timer_fired s)) < polls_left s.
Proof.
  intros (w & Htm & Ht). simpl. rewrite Htm. unfold rapidChangeWorkaround. simpl.
  pose proof (rapidChangeWorkaround__polls_left location (queue s) w (tries s)) as H.
  unfold polls_left at 2. rewrite Htm. unfold maxTries in *. lia.
Qed.
Lemma polls_left_idle s : idle s \/ polling s -> polls_left s = 0 -> idle s.
Proof.
  intros [Hi|(w & Htm & Ht)] H0; [done|].
  unfold polls_left in H0. rewrite Htm in H0. unfold maxTries in *. lia.
Qed.

Lemma step_keeps_shape location e s :
  idle s \/ polling s ->
  (idle (st (step false location e s)) \/ polling (st (step false location e s)))
  /\ thrown (step false location e s) = false.
Proof.
  intros Hs.
  destruct (step_settled false location e s Hs)
    as [[(Ht & Hi & _)|(_ & Htest & _)] _]; done.
Qed.

Lemma timers_fired_idle locations : forall s,
  idle s \/ polling s ->
  polls_left s <= length locations ->
  idle (st (run false (timers_fired locations) s)).
Proof.
  induction locations as [|l rest IH]; intros s Hs Hlen.
  - simpl in *. apply polls_left_idle; [done|lia].
  - unfold timers_fired. rewrite map_cons, run_cons. cbn [st].
    apply IH; [by apply step_keeps_shape|].
    destruct Hs as [Hi|Hp].
    + destruct Hi as (Ht & Htm & Hq). simpl. rewrite Htm. simpl.
      unfold polls_left. rewrite Htm. lia.
    + pose proof (timer_fired_polls_left l s Hp). simpl in Hlen. lia.
Qed.

Lemma arrivals_timers_fired locations : arrivals (timers_fired locations) = [].
Proof. induction locations as [|l rest IH]; [done|]. exact IH. Qed.

Lemma timers_complete_waits (s : RapidChange.t) (locations : list string) :
  idle s \/ polling s ->
  9 * length (waiting s) <= length locations ->
  let o := run false (timers_fired locations) s in
  st o = initial
  /\ completions (effects o) = waiting s
  /\ thrown o = false.
Proof.
  intros Hs Hlen o. subst o.
  assert (Hidle : idle (st (run false (timers_fired locations) s))).
  { apply timers_fired_idle; [done|].
    destruct Hs as [(Ht & Htm & Hq)|(w & Htm & Ht)]; unfold polls_left, waiting in *;
      rewrite Htm in *; [lia|].
    rewrite length_app in Hlen. simpl in Hlen. unfold maxTries. lia. }
  destruct (run_settled false (timers_fired locations) s Hs)
    as [_ [(Ht & _ & Hc)|(_ & Htest & _)]]; [|done].
  rewrite arrivals_timers_fired, app_nil_r in Hc.
  destruct Hidle as (H1 & H2 & H3). unfold waiting in Hc at 1.
  rewrite H2, H3, app_nil_r in Hc.
  split; [|done].
  destruct (st (run false (timers_fired locations) s)); simpl in *. by subst.
Qed.

(** Outside the test mode no wait is starved.  After any sequence of calls
    of [tryChange] and timer callbacks, and whatever the browser shows from
    then on: once nine more timer callbacks have run for each wait still in
    the system (the polling one and the queued ones), every wait that was
    asked for has completed, in the order asked, nothing was thrown, and the
    workaround is back in its initial state. *)
Theorem waits_complete_within_bound (evs : list (string * Event))
    (locations : list string) :
  let before := run false evs initial in
  9 * length (waiting (st before)) <= length locations ->
  let o := run false (timers_fired locations) (st before) in
  st o = initial
  /\ completions (effects before) ++ completions (effects o) = arrivals evs
  /\ thrown before = false
  /\ thrown o = false.
Proof.
  intros before Hlen o. subst before o.
  destruct (run_settled false evs initial (or_introl idle_initial))
    as [_ [(Ht & Hs & Hc)|(_ & Htest & _)]]; [|done].
  destruct (timers_complete_waits _ locations Hs Hlen) as (H1 & H2 & H3).
  by rewrite H2, Hc.
Qed.

Lemma waits_complete_within_bound_witness :
  let evs := [("/a", tryChange_called Sample.wait_b);
              ("/a", tryChange_called Sample.wait_c)] in
  let before := run false evs initial in
  let o := run false (timers_fired (replicate 18 "/a")) (st before) in
  st o = initial
  /\ completions (effects before) ++ completions (effects o)
     = [Sample.wait_b; Sample.wait_c]
  /\ thrown before = false
  /\ thrown o = false.
Proof.
  apply (waits_complete_within_bound
           [("/a", tryChange_called Sample.wait_b);
            ("/a", tryChange_called Sample.wait_c)]
           (replicate 18 "/a")).
  simpl. lia.
Defined.

Lemma never_ready_state test w first later :
  length later = 9 ->
  Forall (fun l => ready l w = false) (first :: later) ->
  st (run test (never_ready_run w first later) initial)
  = if test then {| tries := maxTries; queue := []; timers := [] |} else initial.
Proof.
  intros Hlen Hall.
  apply Forall_cons in Hall as [Hfirst Hall].
  destruct later as [|last mid _] using rev_ind; [done|].
  rewrite length_app in Hlen. simpl in Hlen.
  apply Forall_app in Hall as [Hmid Hlast].
  apply Forall_cons in Hlast as [Hlast _].
  unfold never_ready_run, timers_fired.
  rewrite run_cons, step_first_poll by done. cbn [st effects thrown].
  rewrite map_app, run_app. cbn [st effects thrown].
  destruct (run_retries test w mid 1 Hmid ltac:(unfold maxTries; lia))
    as (H1 & _).
  unfold timers_fired in *. rewrite H1.
  rewrite map_cons, run_cons.
  rewrite (step_last_poll test last w (1 + length mid) Hlast)
    by (unfold maxTries; lia).
  by destruct test.
Qed.

Lemma run_stuck_queue test evs : forall s,
  stuck s ->
  queue (st (run test evs s)) = queue s ++ arrivals evs
  /\ tries (st (run test evs s)) = maxTries
  /\ timers (st (run test evs s)) = [].
Proof.
  induction evs as [|[location e] rest IH]; intros s Hs.
  - simpl. rewrite app_nil_r. by destruct Hs.
  - rewrite run_cons, arrivals_cons. cbn [st].
    destruct (step_stuck test location e s Hs) as (_ & _ & H3).
    destruct (IH _ H3) as (Hq & Ht & Htm). rewrite Hq, Ht, Htm.
    split; [|done]. destruct Hs as [Ht0 Htm0]. destruct e as [w|]; simpl.
    + unfold tryChange. rewrite Ht0. simpl. by rewrite <- app_assoc.
    + by rewrite Htm0.
Qed.

(** In the test mode a wait that is not ready at its tenth poll throws and
    leaves the counter at [maxTries] with no timer set.  From then on the
    workaround is blocked: every later wait is only put on the queue, none
    ever completes or polls, no timer is set, whatever the browser shows and
    however long it lasts. *)
Theorem test_mode_failure_blocks (w : Waiter) (first : string) (later : list string)
    (evs : list (string * Event)) :
  length later = 9 ->
  Forall (fun l => ready l w = false) (first :: later) ->
  let failed := run true (never_ready_run w first later) initial in
  let o := run true evs (st failed) in
  thrown failed = true
  /\ effects o = []
  /\ tries (st o) = maxTries
  /\ timers (st o) = []
  /\ queue (st o) = arrivals evs.
Proof.
  intros Hlen Hall failed o. subst failed o.
  destruct (never_ready_bound true w first later Hlen Hall) as (_ & Ht & _).
  rewrite (never_ready_state true w first later Hlen Hall).
  set (s := {| tries := maxTries; queue := []; timers := [] |}).
  assert (Hs : stuck s) by done.
  destruct (run_stuck true evs s Hs) as (_ & He & _).
  destruct (run_stuck_queue true evs s Hs) as (Hq & Htr & Htm).
  by rewrite Hq.
Qed.

Lemma test_mode_failure_blocks_witness :
  let failed := run true (never_ready_run Sample.wait_b "/a" (replicate 9 "/a")) initial in
  let o := run true [("/c", tryChange_called Sample.wait_c); ("/c", timer_fired)]
             (st failed) in
  thrown failed = true
  /\ effects o = []
  /\ tries (st o) = maxTries
  /\ timers (st o) = []
  /\ queue (st o) = [Sample.wait_c].
Proof.
  apply (test_mode_failure_blocks Sample.wait_b "/a" (replicate 9 "/a")
           [("/c", tryChange_called Sample.wait_c); ("/c", timer_fired)]).
  - reflexivity.
  - repeat constructor.
Defined.

(** A wait whose url the browser already shows when it is asked for, with
    no other wait going on, completes within the call: when every wait of a
    run is such, each completes at once in the order asked, no timer is ever
    set, nothing is logged or thrown, and the workaround stays in its
    initial state. *)
Theorem ready_waits_complete_at_once (test : bool) (evs : list (string * Event)) :
  Forall (fun le => forall w, le.2 = tryChange_called w -> ready le.1 w = true) evs ->
  let o := run test evs initial in
  st o = initial
  /\ effects o = map complete (arrivals evs)
  /\ thrown o = false.
Proof.
  intros Hall o. subst o.
  induction evs as [|[location e] rest IH]; [done|].
  apply Forall_cons in Hall as [Hr Hall]. specialize (IH Hall).
  destruct IH as (H1 & H2 & H3).
  rewrite run_cons, arrivals_cons. destruct e as [w|].
  - assert (Hstep : step test location (tryChange_called w) initial
                    = {| st := initial; effects := [complete w]; thrown := false |}).
    { pose proof (Hr w eq_refl) as Hw. simpl in Hw.
      simpl. unfold tryChange, rapidChangeWorkaround. simpl.
      rewrite Hw. simpl. by rewrite andb_false_r. }
    rewrite Hstep. cbn [st effects thrown]. by rewrite H1, H2, H3.
  - change (step test location timer_fired initial)
      with {| st := initial; effects := []; thrown := false |}.
    cbn [st effects thrown]. by rewrite H1, H2, H3.
Qed.

Lemma ready_waits_complete_at_once_witness :
  let o := run true [("/b", tryChange_called Sample.wait_b);
                     ("/c", tryChange_called Sample.wait_c)] initial in
  st o = initial
  /\ effects o = [complete Sample.wait_b; complete Sample.wait_c]
  /\ thrown o = false.
Proof.
  apply (ready_waits_complete_at_once true
           [("/b", tryChange_called Sample.wait_b);
            ("/c", tryChange_called Sample.wait_c)]).
  repeat constructor; intros w [= <-]; reflexivity.
Defined.
End Progress.

(* ================================================================== *)
(** * More on the pop handling *)
(* ================================================================== *)

Section PopHandlingMore.

Import BrowserHistory.
#[local] Open Scope Z_scope.

Lemma feed1_location i s :
  url (fst (feed1 i s)) = url s
  /\ prevUrl (fst (feed1 i s)) = prevUrl s
  /\ entries (fst (feed1 i s)) = entries s
  /\ index (fst (feed1 i s)) = index s
  /\ _id (fst (feed1 i s)) = _id s.
Proof.
  destruct i as [loc|c|n]; simpl; [| |done].
  - unfold handlePop. destruct (_popForced s); [done|].
    destruct (truthy_pendingPop (pendingPop s)); simpl; [|done].
    by destruct (String.eqb _ _).
  - unfold revertPop. destruct (closures s !! c) as [cl|]; [|done].
    by destruct (reverted cl).
Qed.

Lemma feed1_calls i s c :
  c ∈ snd (feed1 i s) ->
  (exists n, c = history_go n) \/ (exists n kind r, c = jump n kind r).
Proof.
  destruct i as [loc|c'|n]; simpl.
  - unfold handlePop. destruct (_popForced s); [by intros ?%elem_of_nil|].
    destruct (truthy_pendingPop (pendingPop s)); simpl.
    + destruct (String.eqb _ _); intros ->%list_elem_of_singleton; left; by eexists.
    + intros ->%list_elem_of_singleton. right. by do 3 eexists.
  - unfold revertPop. destruct (closures s !! c') as [cl|]; [|by intros ?%elem_of_nil].
    destruct (reverted cl); simpl; [by intros ?%elem_of_nil|].
    intros ->%list_elem_of_singleton. left. by eexists.
  - intros ->%list_elem_of_singleton. left. by eexists.
Qed.

(** While a pop is pending nothing reaches the gate, and the class does
    not touch [pendingPop]. *)
Lemma feed1_pending i s :
  truthy_pendingPop (pendingPop s) = true ->
  filter (fun c => is_jump c = true) (snd (feed1 i s)) = []
  /\ pendingPop (fst (feed1 i s)) = pendingPop s.
Proof.
  intros H. destruct i as [loc|c|n]; simpl; [| |done].
  - unfold handlePop. destruct (_popForced s); [done|].
    rewrite H. simpl. by destruct (String.eqb _ _).
  - unfold revertPop. destruct (closures s !! c) as [cl|]; [|done].
    by destruct (reverted cl).
Qed.

Lemma feed_pending inputs : forall s,
  truthy_pendingPop (pendingPop s) = true ->
  filter (fun c => is_jump c = true) (snd (feed inputs s)) = []
  /\ pendingPop (fst (feed inputs s)) = pendingPop s.
Proof.
  induction inputs as [|i rest IH]; intros s H; [done|].
  simpl. destruct (feed1_pending i s H) as [Hj Hp].
  destruct (feed1 i s) as [s1 c1]; simpl in *.
  rewrite <- Hp in H. destruct (IH s1 H) as [Hj' Hp'].
  destruct (feed rest s1) as [s2 c2]; simpl in *.
  by rewrite filter_app, Hj, Hj', Hp'.
Qed.

(** One input either does not reach the gate, or reaches it once and
    leaves a pop pending. *)
Lemma feed1_jump i s :
  filter (fun c => is_jump c = true) (snd (feed1 i s)) = []
  \/ (length (filter (fun c => is_jump c = true) (snd (feed1 i s))) = 1%nat
      /\ truthy_pendingPop (pendingPop (fst (feed1 i s))) = true).
Proof.
  destruct i as [loc|c|n]; simpl; [| |by left].
  - unfold handlePop. destruct (_popForced s); [by left|].
    destruct (truthy_pendingPop (pendingPop s)); simpl.
    + left. by destruct (String.eqb _ _).
    + right. split; [done|]. by destruct (_isNext s loc).
  - left. unfold revertPop. destruct (closures s !! c) as [cl|]; [|done].
    by destruct (reverted cl).
Qed.

(** Whatever reaches the object, in whatever order (pop events, calls of
    [revertPop] closures, forced navigations), the gate is asked at most
    once: the first pop that is handled leaves [pendingPop] set, the class
    itself never clears or changes it, and while it is set no pop event ever
    calls [jump] again. *)
Theorem gate_asked_at_most_once (inputs : list Input) (s : BrowserHistory.t) :
  (length (filter (fun c => is_jump c = true) (snd (feed inputs s))) <= 1)%nat
  /\ (truthy_pendingPop (pendingPop s) = true ->
      filter (fun c => is_jump c = true) (snd (feed inputs s)) = []
      /\ pendingPop (fst (feed inputs s)) = pendingPop s).
Proof.
  split; [|by apply feed_pending].
  revert s. induction inputs as [|i rest IH]; intros s; [simpl; lia|].
  simpl. destruct (feed1_jump i s) as [Hj|[Hj Hp]].
  - specialize (IH (fst (feed1 i s))).
    destruct (feed1 i s) as [s1 c1]; simpl in *.
    destruct (feed rest s1) as [s2 c2]; simpl in *.
    by rewrite filter_app, Hj.
  - destruct (feed_pending rest _ Hp) as [Hr _].
    destruct (feed1 i s) as [s1 c1]; simpl in *.
    destruct (feed rest s1) as [s2 c2]; simpl in *.
    rewrite filter_app, Hr, app_nil_r. lia.
Qed.

(** The pop handling never moves the engine: pop events, [revertPop]
    closures and forced navigations leave [url], [prevUrl], [entries],
    [index] and the session id as they are, and the only calls they make are
    [history.go] and the gate; the native state is never pushed or
    replaced. *)
Theorem pop_handling_frame (inputs : list Input) (s : BrowserHistory.t) :
  let s' := fst (feed inputs s) in
  url s' = url s
  /\ prevUrl s' = prevUrl s
  /\ entries s' = entries s
  /\ index s' = index s
  /\ _id s' = _id s
  /\ (forall c, c ∈ snd (feed inputs s) ->
        (exists n, c = history_go n) \/ (exists n kind r, c = jump n kind r)).
Proof.
  revert s. induction inputs as [|i rest IH]; intros s.
  - simpl. repeat split. by intros c ?%elem_of_nil.
  - simpl in *. destruct (feed1_location i s) as (H1 & H2 & H3 & H4 & H5).
    pose proof (feed1_calls i s) as Hc.
    specialize (IH (fst (feed1 i s))).
    destruct (feed1 i s) as [s1 c1]; simpl in *.
    destruct (feed rest s1) as [s2 c2]; simpl in *.
    destruct IH as (I1 & I2 & I3 & I4 & I5 & I6).
    rewrite I1, I2, I3, I4, I5. repeat split; try done.
    intros c [Hin|Hin]%elem_of_app; [by apply Hc | by apply I6].
Qed.

(** The engine's own navigations do not come back as pops.  After the
    steps of a programmatic [_jump] by [n], or of a [_replace] with a delta
    [n], have run from a state with the forced flag down, the pop event the
    browser fires for [history.go(n)] is swallowed and the engine is exactly
    as it was before.  [_push], and [_replace] and [_jump] without a delta,
    never call [history.go] and leave the flag alone. *)
Theorem own_navigation_is_not_a_pop (s : BrowserHistory.t) (action loc : Action)
    (awaitLoc : option ActOrUrl) (n : Z) (isPop : bool) :
  (n <> 0 -> _popForced s = false ->
     (let after := run_ops (_jump s action n false) s in
      history_go n ∈ snd after /\ handlePop loc (fst after) = (s, []))
     /\ (let after := run_ops (_replace s action awaitLoc n) s in
         history_go n ∈ snd after /\ handlePop loc (fst after) = (s, [])))
  /\ run_ops (_push s action awaitLoc) s
     = (s, [history_pushState (_id s) (location_key action) (state action)
              (location_url action)])
  /\ run_ops (_replace s action awaitLoc 0) s
     = (s, [history_replaceState (_id s) (location_key action) (state action)
              (location_url action)])
  /\ run_ops (_jump s action 0 isPop) s
     = (s, [history_replaceState (_id s) (location_key action) (state action)
              (location_url action)]).
Proof.
  split; [|done].
  intros Hn Hf. apply Z.eqb_neq in Hn.
  assert (Hback : set_popForced false (set_popForced true s) = s).
  { destruct s; simpl in *. by subst. }
  unfold _jump, _replace. rewrite Hn. simpl. unfold handlePop. simpl.
  rewrite Hback. repeat split; set_solver.
Qed.
End PopHandlingMore.

(* ================================================================== *)
(** * Properties of [_setState] *)
(* ================================================================== *)

Section SetStateFacts.

Import BrowserHistory Chains.
#[local] Open Scope Z_scope.

Lemma entry_at_None action_entries i :
  entry_at action_entries i = None <-> i < 0 \/ Z.of_nat (length action_entries) <= i.
Proof.
  unfold entry_at. destruct (i <? 0) eqn:Hi.
  - apply Z.ltb_lt in Hi. split; [by left|done].
  - apply Z.ltb_ge in Hi. rewrite lookup_ge_None. split.
    + intros H. right. lia.
    + intros [H|H]; lia.
Qed.



(** [_setState(action, n)] for an index outside [action.location.entries].
    With [n] zero it throws a [TypeError] at once, before any call.  With
    [n] not zero the chain waits for the previous url, forces the navigation
    by [n] and is then rejected with a [TypeError]: the native state is not
    replaced, and the navigation by [-n] that would undo the first one is
    never made. *)
Theorem _setState_missing_entry (s : BrowserHistory.t) (action_entries : list Action)
    (n : Z) :
  Z.of_nat (index s) + n < 0
  \/ Z.of_nat (length action_entries) <= Z.of_nat (index s) + n ->
  (n = 0 -> _setState s action_entries n = JS.Throw JS.TypeError)
  /\ (n <> 0 ->
      exists chain,
        _setState s action_entries n = JS.Ok chain
        /\ run_chain chain s =
             {| this := set_popForced true s;
                seen := [waited (prevUrl s) None; called (history_go n)];
                rejected := Some JS.TypeError |}
        /\ displacement (seen (run_chain chain s)) = n).
Proof.
  intros Hout. apply entry_at_None in Hout.
  unfold _setState. rewrite Hout. split.
  - by intros ->.
  - intros Hn. apply Z.eqb_neq in Hn. rewrite Hn.
    eexists. split; [reflexivity|]. simpl. split; [done|]. lia.
Qed.

Lemma _setState_missing_entry_witness :
  _setState Sample.at_5 (map Sample.reporting Sample.urls) 0 <> JS.Throw JS.TypeError
  /\ exists chain,
       _setState Sample.at_5 (map Sample.reporting Sample.urls) 2 = JS.Ok chain
       /\ seen (run_chain chain Sample.at_5) = [waited "/4" None; called (history_go 2)]
       /\ rejected (run_chain chain Sample.at_5) = Some JS.TypeError.
Proof.
  split; [discriminate|].
  destruct (_setState_missing_entry Sample.at_5 (map Sample.reporting Sample.urls) 2)
    as [_ H]; [right; simpl; lia|].
  destruct H as (chain & Hc & Hr & _); [lia|].
  exists chain. split; [exact Hc|]. by rewrite Hr.
Defined.
End SetStateFacts.

(* ================================================================== *)
(** * Properties of the callback middleware *)
(* ================================================================== *)

Section CallbackFacts.

Import JS Callbacks.

Variable LocationState : Type.
Variable kind : LocationState -> string.
Variable isLoadSSR : LocationState -> option string -> bool.
Variable isServer : bool.

#[local] Ltac on_names :=
  repeat match goal with
  | |- context [String.eqb (String ?c ?r) ?y] =>
      let b := eval vm_compute in (String.eqb (String c r) y) in
      change (String.eqb (String c r) y) with b
  | |- context [occurs ?p (String ?c ?r)] =>
      let b := eval vm_compute in (occurs p (String c r)) in
      change (occurs p (String c r)) with b
  end.

(** [defaultShouldCall] on the names the callbacks go by.  [beforeEnter]
    is skipped exactly on the first load of a page rendered on the server;
    [beforeLeave] also when the state's kind is [init]; [onEnter] is skipped
    exactly on the server, [onLeave] also when the kind is [load]; [thunk] is
    skipped exactly on a load rendered on the server; [onComplete], and any
    name that holds none of [beforeLeave], [beforeEnter], [onLeave],
    [onEnter] and is not [thunk], is always called.  The first two tests are
    on parts of the name: on the server a name that holds [onEnter] anywhere
    is skipped. *)
Theorem defaultShouldCall_names (state : LocationState) :
  let should := defaultShouldCall LocationState kind isLoadSSR isServer state in
  should "beforeLeave"
    = negb (isLoadSSR state (Some "init")) && negb (String.eqb (kind state) "init")
  /\ should "beforeEnter" = negb (isLoadSSR state (Some "init"))
  /\ should "onLeave" = negb isServer && negb (String.eqb (kind state) "load")
  /\ should "onEnter" = negb isServer
  /\ should "thunk" = negb (isLoadSSR state None)
  /\ should "onComplete" = true
  /\ (forall name,
        occurs "beforeLeave" name = false -> occurs "beforeEnter" name = false ->
        occurs "onLeave" name = false -> occurs "onEnter" name = false ->
        name <> "thunk" -> should name = true)
  /\ (forall name,
        isServer = true -> occurs "onEnter" name = true -> should name = false).
Proof.
  intros should. subst should. unfold defaultShouldCall.
  repeat split; on_names.
  - destruct (isLoadSSR state (Some "init")), isServer, (isLoadSSR state None),
      (String.eqb (kind state) "init"); done.
  - destruct (isLoadSSR state (Some "init")), isServer, (isLoadSSR state None); done.
  - destruct (isLoadSSR state (Some "init")), isServer, (isLoadSSR state None),
      (String.eqb (kind state) "load"); done.
  - destruct (isLoadSSR state (Some "init")), isServer, (isLoadSSR state None); done.
  - destruct (isLoadSSR state (Some "init")), isServer, (isLoadSSR state None); done.
  - destruct (isLoadSSR state (Some "init")), isServer, (isLoadSSR state None); done.
  - intros name H1 H2 H3 H4 Hn. rewrite H1, H2, H3, H4, !andb_false_r.
    assert (Hbl : String.eqb name "beforeLeave" = false).
    { apply String.eqb_neq. intros ->. done. }
    assert (Hol : String.eqb name "onLeave" = false).
    { apply String.eqb_neq. intros ->. done. }
    apply String.eqb_neq in Hn. by rewrite Hn, Hbl, Hol, andb_false_r.
  - intros name -> ->. rewrite orb_true_r. simpl.
    by destruct (isLoadSSR state (Some "init") && _).
Qed.

Lemma isFalse_spec a b : isFalse a b = true <-> a = VBool false \/ b = VBool false.
Proof.
  split.
  - destruct a as [| |[]| | |]; destruct b as [| |[]| | |]; simpl; intros H;
      try discriminate; auto.
  - intros [->| ->]; [done|]. by destruct a as [| |[]| | |].
Qed.

(** The middleware [call(name, config)].  When [shouldCall] says no, only
    [next] is called and its result returned.  Otherwise the callback of the
    route (the previous route with [config.prev]) and the one of the options
    are both called, the second also when the first resolves to [false];
    [next] is called unless one of the two results is exactly [false]:
    [undefined], [null], [0] or the empty string do not stop the chain.  The
    result is [false] exactly when [next] was not called, so that [false]
    always means a veto; otherwise it is the route's result when that is
    truthy, else the options' result.  A route that is not there makes the
    call fail with a [TypeError]. *)
Theorem middleware_veto (name : string) (prev : bool) (req : Req LocationState)
    (next_result : value) :
  let should := shouldCall LocationState kind isLoadSSR isServer req name prev in
  let run := middleware LocationState kind isLoadSSR isServer name prev req next_result in
  let the_route := if prev then prevRoute req else route req in
  (should = false -> run = Ok (next_result, [next]))
  /\ (should = true -> the_route = None -> run = Throw TypeError)
  /\ (forall table, should = true -> the_route = Some table ->
      let a := default VUndefined (table name) in
      let b := default VUndefined (options req name) in
      exists v calls,
        run = Ok (v, calls)
        /\ (next ∈ calls <-> a <> VBool false /\ b <> VBool false)
        /\ (v = VBool false <-> next ∉ calls)
        /\ (next ∈ calls -> v = if truthy a then a else b)
        /\ (is_Some (table name) -> routeCb ∈ calls)
        /\ (is_Some (options req name) -> globalCb ∈ calls)
        /\ calls `sublist_of` [routeCb; globalCb; next]).
Proof.
  intros should run the_route. subst run. unfold middleware. fold should the_route.
  split; [by intros ->|]. split; [by intros -> ->|].
  intros table -> ->. simpl.
  set (a := default VUndefined (table name)).
  set (b := default VUndefined (options req name)).
  set (cbs := (match table name with Some _ => [routeCb] | None => [] end)
              ++ (match options req name with Some _ => [globalCb] | None => [] end)).
  assert (Hcbs : (next ∉ cbs)
                 /\ (is_Some (table name) -> routeCb ∈ cbs)
                 /\ (is_Some (options req name) -> globalCb ∈ cbs)
                 /\ cbs ++ [next] `sublist_of` [routeCb; globalCb; next]).
  { subst cbs. destruct (table name), (options req name); simpl;
      (split; [|split; [|split]]);
      try (intros [? [=]]);
      try (repeat first [apply sublist_nil | apply sublist_skip | apply sublist_cons]);
      try (by repeat constructor);
      intros H; repeat (apply elem_of_cons in H as [H|H]; [discriminate|]);
      by apply elem_of_nil in H. }
  destruct Hcbs as (Hn & Hr & Hg & Hsub).
  destruct (isFalse a b) eqn:Hf.
  - apply isFalse_spec in Hf. exists (VBool false), cbs.
    split; [done|]. split; [|split; [done|split; [done|split; [done|split; [done|]]]]].
    + split; [done|]. intros [Ha Hb]. by destruct Hf.
    + etrans; [|exact Hsub]. by apply sublist_inserts_r.
  - assert (Ha : a <> VBool false).
    { intros Ha. rewrite Ha in Hf. done. }
    assert (Hb : b <> VBool false).
    { intros Hb. rewrite (proj2 (isFalse_spec a b)) in Hf; [done|by right]. }
    assert (Hnext : next ∈ cbs ++ [next]).
    { apply elem_of_app. right. constructor. }
    exists (if truthy a then a else b), (cbs ++ [next]).
    split; [done|]. split; [done|]. split; [|split; [done|split; [|split; [|done]]]].
    + split; [|done].
      intros Hv. destruct (truthy a) eqn:Ht; [|done]. by rewrite Hv in Ht.
    + intros H. apply elem_of_app. left. by apply Hr.
    + intros H. apply elem_of_app. left. by apply Hg.
Qed.

End CallbackFacts.

(* ================================================================== *)
(** * More on the translator *)
(* ================================================================== *)

Section TranslatorMore.

Import JS Translator.

Variable call : fn -> list Arg -> value.
Variable matchPath : Location -> Route.t -> Options.t -> option RawMatch.
Variable urlToLocation : string -> Location.
Variable NOT_FOUND : string.

Lemma urlToAction_loop_none l routes opts basename state :
  (forall t r, (t, r) ∈ routes -> has_path r = true ->
     matchUrl matchPath l r (transformers call) r opts = Ok None) ->
  urlToAction_loop call matchPath (path_types routes) l routes opts basename state
  = Ok None.
Proof.
  intros Hnone. unfold path_types.
  assert (Hgen : forall table,
    urlToAction_loop call matchPath
      (filter (fun type => from_option has_path false (get routes type) = true)
         (keys table))
      l routes opts basename state = Ok None).
  { induction table as [|[t r] rest IH]; [done|].
    unfold keys in *. rewrite fmap_cons. simpl fst.
    destruct (get routes t) as [r0|] eqn:Hget.
    - destruct (has_path r0) eqn:Hp.
      + rewrite filter_cons_True by (by rewrite Hget).
        simpl. rewrite Hget.
        by rewrite (Hnone t r0 (get_elem_of routes t r0 Hget) Hp).
      + rewrite filter_cons_False by (rewrite Hget; simpl; congruence). done.
    - rewrite filter_cons_False by (rewrite Hget; simpl; congruence). done. }
  by apply Hgen.
Qed.

(** A url that no route matches and that has a search string needs
    [routes.NOT_FOUND]: when the table has no route under the plain key
    [NOT_FOUND], the translator throws a [TypeError] instead of returning the
    NOT_FOUND action, also when the options carry [parseQuery] and when the
    table has the scoped [<scene>/NOT_FOUND]; it throws as well when the
    route is there but neither it nor the options carry [parseQuery]. *)
Theorem urlToAction_without_parseQuery (loc : Loc) (routes : RoutesMap)
    (opts : Options.t) (scene : string) :
  let l := stripped_location urlToLocation loc in
  (forall t r, (t, r) ∈ routes -> has_path r = true ->
     matchUrl matchPath l r (transformers call) r opts = Ok None) ->
  search l <> "" ->
  get routes "NOT_FOUND" = None
  \/ (exists r, get routes "NOT_FOUND" = Some r
               /\ Route.parseQuery r = None /\ Options.parseQuery opts = None) ->
  urlToAction call matchPath urlToLocation NOT_FOUND loc routes opts scene
  = Throw TypeError.
Proof.
  intros l Hnone Hs Hq. unfold urlToAction. fold l.
  rewrite (urlToAction_loop_none l routes opts _ _ Hnone). simpl.
  apply String.eqb_neq in Hs. rewrite Hs. unfold notFound, parseQuery.
  destruct Hq as [->|(r & -> & -> & ->)]; done.
Qed.

End TranslatorMore.

Section MoreSamples.

Import JS Translator SampleRoutes.

Lemma urlToAction_without_parseQuery_witness :
  urlToAction call matchPath urlToLocation NOT_FOUND (loc_url "/nope?a=1")
    routes_without_NOT_FOUND parseQuery_options "" = Throw TypeError.
Proof.
  apply (urlToAction_without_parseQuery call matchPath urlToLocation NOT_FOUND
           (loc_url "/nope?a=1") routes_without_NOT_FOUND parseQuery_options "").
  - intros t r Hin Hp.
    repeat (apply elem_of_cons in Hin as [[= -> ->]|Hin]; [by vm_compute|]).
    by apply elem_of_nil in Hin.
  - discriminate.
  - by left.
Defined.

Lemma fromPath_plain_witness :
  exists params,
    fromPath call [("category", Some "shoes"); ("id", None)] (at_path "/:category/:id?")
      no_options = Ok (VObj params)
    /\ params !! "category" = Some (VStr "shoes")
    /\ params !! "id" = None.
Proof.
  destruct (fromPath_plain call [("category", Some "shoes"); ("id", None)]
              (at_path "/:category/:id?") no_options)
    as (params & Hp & Hs & Hn & _); try reflexivity.
  - apply (bool_decide_unpack _). by vm_compute.
  - intros k s Hin.
    apply elem_of_cons in Hin as [[= -> ->]|Hin]; [reflexivity|].
    apply elem_of_cons in Hin as [[=]|Hin]. by apply elem_of_nil in Hin.
  - exists params. split; [exact Hp|]. split.
    + apply Hs. repeat constructor.
    + apply Hn. repeat constructor.
Defined.

Lemma convertNumbers_leading_zeros_witness :
  fromPath_key call "page" (Some "7") list_ no_options = Ok (VNum 7)
  /\ fromPath_key call "page" (Some "07") list_ no_options
     = fromPath_key call "page" (Some "7") list_ no_options.
Proof.
  destruct (convertNumbers_leading_zeros call "page" "7" list_ no_options)
    as (H1 & _ & H3); try reflexivity; [by vm_compute|].
  split; [exact H1 | exact H3].
Defined.

End MoreSamples.

(* ================================================================== *)
(** * Properties of [_reset] *)
(* ================================================================== *)

Section ResetFacts.

Import BrowserHistory Chains.
#[local] Open Scope Z_scope.

Lemma dropped_pushes s rest :
  flat_map (fun e => dropped (_push s e None) s) rest = map (push_asked s) rest.
Proof. induction rest as [|e rest IH]; [done|]. cbn [flat_map map]. by rewrite IH. Qed.
Lemma run_reset s action_index e0 rest u0 us :
  entries s = u0 :: us ->
  run_chain (_reset s action_index (e0 :: rest)) s =
    {| this := set_popForced true s;
       seen := [waited (prevUrl s) None; called (history_go (- Z.of_nat (index s)));
                waited u0 None]
               ++ replace_asked s e0 :: map (push_asked s) rest
               ++ (if action_index =? Z.of_nat (length (e0 :: rest)) - 1 then []
                   else [called (history_go
                                   (action_index - (Z.of_nat (length (e0 :: rest)) - 1)))]);
       rejected := None |}.
Proof.
  intros He. unfold _reset. rewrite He.
  cbn [run_chain run_link lookup list_lookup option_map].
  cbn [_forceGo url_of map app]. rewrite dropped_pushes.
  change (push_asked (set_popForced true s)) with (push_asked s).
  destruct (action_index =? Z.of_nat (length (e0 :: rest)) - 1); simpl;
    by rewrite ?app_nil_r.
Qed.

(** [_reset(action)].  The chain waits for the previous url, forces the
    navigation by [-this.index] (also when the index is zero), and waits for
    the url of [this.entries[0]].  Its last step then asks, one after the
    other and all waiting for the previous url, for the [replaceState] of
    the first of the action's entries and for the [pushState] of each of the
    others, in the order of the entries, without waiting for any of them; and
    unless the action's index is the last one it forces the navigation by
    [index - lastIndex] within the same step, so before any of these calls
    is made.  When the engine has no entry the chain is rejected after the
    first navigation; when the action has no entry it is rejected before
    anything is asked for. *)
Theorem _reset_steps (s : BrowserHistory.t) (action_index : Z)
    (action_entries : list Action) :
  let start := [waited (prevUrl s) None; called (history_go (- Z.of_nat (index s)))] in
  let lastIndex := Z.of_nat (length action_entries) - 1 in
  (entries s = [] ->
     run_chain (_reset s action_index action_entries) s =
       {| this := set_popForced true s; seen := start;
          rejected := Some JS.TypeError |})
  /\ (forall u0 us, entries s = u0 :: us -> action_entries = [] ->
        run_chain (_reset s action_index action_entries) s =
          {| this := set_popForced true s; seen := start ++ [waited u0 None];
             rejected := Some JS.TypeError |})
  /\ (forall u0 us e0 rest, entries s = u0 :: us -> action_entries = e0 :: rest ->
        run_chain (_reset s action_index action_entries) s =
          {| this := set_popForced true s;
             seen := start ++ [waited u0 None]
                     ++ replace_asked s e0 :: map (push_asked s) rest
                     ++ (if action_index =? lastIndex then []
                         else [called (history_go (action_index - lastIndex))]);
             rejected := None |}).
Proof.
  intros start lastIndex. split; [|split].
  - unfold _reset. by intros ->.
  - unfold _reset. by intros u0 us -> ->.
  - intros u0 us e0 rest He Ha. subst lastIndex start. rewrite Ha.
    by rewrite (run_reset s action_index e0 rest u0 us He).
Qed.

Lemma asked_waits_pushes s rest tail : forall i,
  map fst (asked_waits i (map (push_asked s) rest ++ tail))
  = imap (fun k _ => {| RapidChange.target := prevUrl s;
                        RapidChange.promise := i + k;
                        RapidChange.name := "_push" |}) rest
    ++ map fst (asked_waits (i + length rest) tail)
  /\ flat_map snd (asked_waits i (map (push_asked s) rest ++ tail))
     = map (fun e => history_pushState (_id s) (location_key e) (state e)
                       (location_url e)) rest
       ++ flat_map snd (asked_waits (i + length rest) tail).
Proof.
  induction rest as [|e rest IH]; intros i.
  - simpl. by rewrite Nat.add_0_r.
  - destruct (IH (S i)) as [IH1 IH2]. simpl.
    rewrite IH1, IH2, Nat.add_0_r, <- Nat.add_succ_comm. split; [|done].
    do 2 f_equal. apply imap_ext. intros k x _. simpl. f_equal. lia.
Qed.

Lemma arrivals_asks location ws locations :
  RapidChange.arrivals
    (map (fun w => (location, RapidChange.tryChange_called w)) ws
     ++ RapidChange.timers_fired locations) = ws.
Proof.
  induction ws as [|w ws IH]; [apply arrivals_timers_fired|].
  rewrite map_cons, <- app_comm_cons, arrivals_cons, IH. done.
Qed.
Lemma asks_complete test location ws locations :
  let o := RapidChange.run test
             (map (fun w => (location, RapidChange.tryChange_called w)) ws
              ++ RapidChange.timers_fired locations) RapidChange.initial in
  RapidChange.completions (RapidChange.effects o) `prefix_of` ws
  /\ (test = false -> (9 * length ws <= length locations)%nat ->
      RapidChange.completions (RapidChange.effects o) = ws).
Proof.
  intros o. subst o. split.
  - destruct (run_settled test
                (map (fun w => (location, RapidChange.tryChange_called w)) ws
                 ++ RapidChange.timers_fired locations)
                RapidChange.initial (or_introl idle_initial))
      as [_ [(_ & _ & Hc)|(_ & _ & _ & Hc)]];
      rewrite arrivals_asks in Hc; simpl in Hc; [|done].
    eexists. by rewrite Hc.
  - intros -> Hlen. rewrite run_app. cbn [RapidChange.effects].
    rewrite completions_app.
    set (asks := map (fun w => (location, RapidChange.tryChange_called w)) ws).
    destruct (run_settled false asks RapidChange.initial (or_introl idle_initial))
      as [_ [(_ & Hs & Hc)|(_ & Htest & _)]]; [|done].
    assert (Ha : RapidChange.arrivals asks = ws).
    { pose proof (arrivals_asks location ws []) as H. simpl in H.
      by rewrite app_nil_r in H. }
    rewrite Ha in Hc. simpl in Hc.
    destruct (timers_complete_waits _ locations Hs) as (_ & H2 & _).
    + apply (f_equal length) in Hc. rewrite length_app in Hc. lia.
    + by rewrite H2.
Qed.

(** [_reset] rebuilds the native entries in order.  The waits its last
    step asks for reach [tryChange] one after the other, first the one of the
    [replaceState] of the first entry, then those of the [pushState] of each
    further entry.  With the workaround idle when that step runs, whatever
    the browser shows and whenever the timers run,
    the waits that have completed are the first ones asked for, so the calls
    made are [replaceState] for the first entry and then [pushState] for the
    entries after it, in the order of the entries and without a gap; outside
    the test mode all of them have been made once nine timer callbacks have
    run for each entry. *)
Theorem _reset_rebuilds_in_order (s : BrowserHistory.t) (action_index : Z)
    (e0 : Action) (rest : list Action) (test : bool) (location : string)
    (locations : list string) :
  entries s <> [] ->
  let table := asked_waits 0 (seen (run_chain (_reset s action_index (e0 :: rest)) s)) in
  let o := RapidChange.run test
             (map (fun wr => (location, RapidChange.tryChange_called wr.1)) table
              ++ RapidChange.timers_fired locations) RapidChange.initial in
  map fst table
  = {| RapidChange.target := prevUrl s; RapidChange.promise := 0;
       RapidChange.name := "_replace" |}
    :: imap (fun k _ => {| RapidChange.target := prevUrl s;
                           RapidChange.promise := S k;
                           RapidChange.name := "_push" |}) rest
  /\ flat_map snd table
     = history_replaceState (_id s) (location_key e0) (state e0) (location_url e0)
       :: map (fun e => history_pushState (_id s) (location_key e) (state e)
                          (location_url e)) rest
  /\ RapidChange.completions (RapidChange.effects o) `prefix_of` map fst table
  /\ (test = false -> (9 * length (e0 :: rest) <= length locations)%nat ->
      RapidChange.completions (RapidChange.effects o) = map fst table).
Proof.
  intros He table o. destruct (entries s) as [|u0 us] eqn:Hes; [done|].
  assert (Ht : map fst table
               = {| RapidChange.target := prevUrl s; RapidChange.promise := 0;
                    RapidChange.name := "_replace" |}
                 :: imap (fun k _ => {| RapidChange.target := prevUrl s;
                                        RapidChange.promise := S k;
                                        RapidChange.name := "_push" |}) rest
               /\ flat_map snd table
                  = history_replaceState (_id s) (location_key e0) (state e0)
                      (location_url e0)
                    :: map (fun e => history_pushState (_id s) (location_key e) (state e)
                                       (location_url e)) rest).
  { subst table. rewrite (run_reset s action_index e0 rest u0 us Hes).
    cbn [seen app asked_waits replace_asked map fst snd flat_map].
    destruct (asked_waits_pushes s rest
                (if action_index =? Z.of_nat (length (e0 :: rest)) - 1 then []
                 else [called (history_go
                                 (action_index - (Z.of_nat (length (e0 :: rest)) - 1)))])
                1%nat) as [H1 H2].
    rewrite H1, H2.
    destruct (action_index =? Z.of_nat (length (e0 :: rest)) - 1); simpl;
      by rewrite !app_nil_r. }
  destruct Ht as [Ht1 Ht2]. split; [done|]. split; [done|].
  subst o.
  replace (map (fun wr => (location, RapidChange.tryChange_called wr.1)) table)
    with (map (fun w => (location, RapidChange.tryChange_called w)) (map fst table))
    by (by rewrite map_map).
  destruct (asks_complete test location (map fst table) locations) as [Hp Hall].
  split; [done|]. intros Htest Hlen. apply Hall; [done|].
  rewrite Ht1. simpl. rewrite length_imap. simpl in Hlen. lia.
Qed.

Lemma _reset_rebuilds_in_order_witness :
  let s := Sample.at_5 in
  let table :=
    asked_waits 0
      (seen (run_chain (_reset s 0 [Sample.reporting "/a"; Sample.reporting "/b"]) s)) in
  let o := RapidChange.run false
             (map (fun wr => ("/0", RapidChange.tryChange_called wr.1)) table
              ++ RapidChange.timers_fired (replicate 18 "/0")) RapidChange.initial in
  flat_map snd table
  = [history_replaceState "session" "0123456789" "{}" "/a";
     history_pushState "session" "0123456789" "{}" "/b"]
  /\ RapidChange.completions (RapidChange.effects o) = map fst table.
Proof.
  destruct (_reset_rebuilds_in_order Sample.at_5 0 (Sample.reporting "/a")
              [Sample.reporting "/b"] false "/0" (replicate 18 "/0"))
    as (_ & H2 & _ & H4); [discriminate|].
  split; [exact H2|]. apply H4; [reflexivity|]. simpl. lia.
Defined.
End ResetFacts.

